(** * Account access allow-list: ledger and registry

    Shallow embedding of
    [extensions/microsoft-authentication/src/common/accountAccess.ts]:
    the class [AccountAccessSecretStorage] (the ledger over the secret-storage
    backend, with its current and legacy keys) and the class
    [ScopedAccountAccess] (the registry with its cached allow-list). *)

From Stdlib Require Import Ascii String NArith.
From stdpp Require Import base strings list gmap.

Set Warnings "-register-all".

(** ** JSON, as far as the source uses it

    [JSON.parse] and [JSON.stringify] are built-ins of the language.  The
    ledger and the registry are written over the interface [JSON]; the module
    [RefJSON] below gives an executable instance of it. *)

Inductive JSONValue : Type :=
  | JNull
  | JBool (b : bool)
  | JNumber (lexeme : string)
  | JString (s : string)
  | JArray (items : list JSONValue)
  | JObject (members : list (string * JSONValue)).

(** [JSON_parse] is [None] where [JSON.parse] throws a [SyntaxError]. *)
Class JSON := {
  JSON_parse : string → option JSONValue;
  JSON_stringify : list string → string
}.

(** The value [JSON.parse] yields for a serialized [string[]]. *)
Definition string_array (l : list string) : JSONValue := JArray (JString <$> l).

(** What is known of the built-ins: the empty text is no JSON text, and a
    stringified [string[]] parses back to itself. *)
Class JSONLaws (J : JSON) : Prop := {
  JSON_parse_empty : JSON_parse "" = None;
  JSON_parse_stringify : ∀ l, JSON_parse (JSON_stringify l) = Some (string_array l)
}.

Definition as_string (j : JSONValue) : option string :=
  match j with JString s => Some s | _ => None end.

(** The run-time check that the source does not make: is the value a
    [string[]]? *)
Definition as_string_array (j : JSONValue) : option (list string) :=
  match j with
  | JArray items => mapM as_string items
  | _ => None
  end.

(** ** The secret-storage backend

    [vscode.SecretStorage] is an external collaborator: a string-keyed store
    whose calls return promises.  [secrets] is its content, [calls] the log of
    the calls made so far (oldest first), and [faults] says for the calls to
    come, in order, whether each one rejects; past the end of [faults] every
    call resolves.  A rejected call leaves [secrets] as it was. *)

Inductive SecretOp : Type :=
  | SecretGet (key : string)
  | SecretStore (key value : string)
  | SecretDelete (key : string).

Record SecretStorage : Type := mkSecretStorage {
  secrets : gmap string string;
  calls : list SecretOp;
  faults : list bool
}.

Inductive Error : Type :=
  | SyntaxError
  | BackendRejected (op : SecretOp)
  | OutsideDeclaredType.

Inductive Settled (A : Type) : Type :=
  | Fulfilled (a : A)
  | Rejected (e : Error).
Arguments Fulfilled {A} a.
Arguments Rejected {A} e.

(** An [async] computation against the backend.  The event loop is
    single-threaded; a computation is modelled run to completion. *)
Definition Promise (A : Type) : Type := SecretStorage → Settled A * SecretStorage.

Definition resolve {A} (a : A) : Promise A := λ st, (Fulfilled a, st).
Definition reject {A} (e : Error) : Promise A := λ st, (Rejected e, st).

(** [await p] followed by the continuation [k]; a rejection propagates. *)
Definition await {A B} (p : Promise A) (k : A → Promise B) : Promise B :=
  λ st, match p st with
        | (Fulfilled a, st') => k a st'
        | (Rejected e, st') => (Rejected e, st')
        end.

(** [x ← p; k] reads [const x = await p; k]. *)
Global Instance Promise_ret : MRet Promise := @resolve.
Global Instance Promise_bind : MBind Promise := λ A B k p, await p k.

(** [Promise.all([p, q])]: both calls are issued, in this order, before
    either is awaited; the result rejects when one of them does. *)
Definition Promise_all2 {A B} (p : Promise A) (q : Promise B) : Promise (A * B) :=
  λ st,
    let '(r1, st1) := p st in
    let '(r2, st2) := q st1 in
    (match r1, r2 with
     | Fulfilled a, Fulfilled b => Fulfilled (a, b)
     | Rejected e, _ => Rejected e
     | _, Rejected e => Rejected e
     end, st2).

(** One call to the backend: logged, and settled according to [faults]. *)
Definition backend_call {A} (op : SecretOp)
    (effect : gmap string string → A * gmap string string) : Promise A :=
  λ st,
    let log := calls st ++ [op] in
    match faults st with
    | true :: rest => (Rejected (BackendRejected op), mkSecretStorage (secrets st) log rest)
    | false :: rest =>
      let '(a, m) := effect (secrets st) in (Fulfilled a, mkSecretStorage m log rest)
    | [] =>
      let '(a, m) := effect (secrets st) in (Fulfilled a, mkSecretStorage m log [])
    end.

(** The next [n] calls to the backend resolve. *)
Definition next_calls_resolve (n : nat) (st : SecretStorage) : Prop :=
  Forall (λ b, b = false) (take n (faults st)).

(** The calls made from [st] on, in a run that ends in [st']. *)
Definition calls_since (st st' : SecretStorage) : list SecretOp :=
  drop (length (calls st)) (calls st').

(** The key a call writes, if it is a write. *)
Definition written_key (op : SecretOp) : option string :=
  match op with
  | SecretStore key _ | SecretDelete key => Some key
  | SecretGet _ => None
  end.

Definition secretStorage_get (key : string) : Promise (option string) :=
  backend_call (SecretGet key) (λ m, (m !! key, m)).

Definition secretStorage_store (key value : string) : Promise unit :=
  backend_call (SecretStore key value) (λ m, (tt, <[key := value]> m)).

Definition secretStorage_delete (key : string) : Promise unit :=
  backend_call (SecretDelete key) (λ m, (tt, delete key m)).

(** [if (value)] on a [string | undefined]: the string when it is truthy,
    that is defined and not the empty string. *)
Definition truthy (value : option string) : option string :=
  match value with
  | Some s => if decide (s = "") then None else Some s
  | None => None
  end.

(** ** The ledger: [AccountAccessSecretStorage] *)

Record Scope : Type := mkScope {
  _cloudName : string;
  _clientId : string;
  _authority : string
}.

Definition _legacyKey (sc : Scope) : string :=
  "accounts-" +:+ _cloudName sc +:+ "-" +:+ _clientId sc +:+ "-" +:+ _authority sc.

Definition _key (sc : Scope) : string :=
  "accounts-" +:+ _cloudName sc.

Module AccountAccessSecretStorage.
Section Ledger.
Context `{J : JSON} (sc : Scope).

(** [JSON.parse(text)] inside an [async] body: a throw rejects the promise. *)
Definition parse (text : string) : Promise JSONValue :=
  match JSON_parse text with
  | Some j => resolve j
  | None => reject SyntaxError
  end.

(** Lines 97-111.  The declared result is [string[] | undefined]; what is
    returned is whatever [JSON.parse] yields. *)
Definition get : Promise (option JSONValue) :=
  value ← secretStorage_get (_key sc);
  match truthy value with
  | Some value => parsed ← parse value; resolve (Some parsed)
  | None =>
    legacyValue ← secretStorage_get (_legacyKey sc);
    match truthy legacyValue with
    | Some legacyValue =>
      parsedValue ← parse legacyValue;
      _ ← secretStorage_store (_key sc) legacyValue;
      resolve (Some parsedValue)
    | None => resolve None
    end
  end.

(** Lines 113-120. *)
Definition store (value : list string) : Promise unit :=
  let stringified := JSON_stringify value in
  _ ← Promise_all2 (secretStorage_store (_key sc) stringified)
                   (secretStorage_store (_legacyKey sc) stringified);
  resolve tt.

(** Lines 122-128. *)
Definition delete : Promise unit :=
  _ ← Promise_all2 (secretStorage_delete (_key sc))
                   (secretStorage_delete (_legacyKey sc));
  resolve tt.

(** The listener on the backend's change stream (lines 89-93): does the
    ledger re-emit a change for the event's key? *)
Definition onDidChange_fires (e_key : string) : bool :=
  bool_decide (e_key = _key sc) || bool_decide (e_key = _legacyKey sc).
End Ledger.
End AccountAccessSecretStorage.

(** ** The registry: [ScopedAccountAccess] *)

(** Of MSAL's [AccountInfo] the source reads [homeAccountId] only. *)
Record AccountInfo : Type := mkAccountInfo {
  homeAccountId : string
}.

Module ScopedAccountAccess.

(** The mutable fields of an instance: the cache [this.value], and how often
    [_onDidAccountAccessChangeEmitter.fire()] has run. *)
Record Fields : Type := mkFields {
  value : list string;
  fired : nat
}.

(** The field initialisers (lines 16 and 21). *)
Definition new : Fields := mkFields [] 0.

Definition fire (this : Fields) : Fields :=
  mkFields (value this) (S (fired this)).

(** Lines 37-39: [Array.prototype.includes] on strings. *)
Definition isAllowedAccess (this : Fields) (account : AccountInfo) : bool :=
  bool_decide (homeAccountId account ∈ value this).

(** [value ?? []] at the type the ledger declares, [string[] | undefined]: the
    new cache.  The ledger hands on whatever [JSON.parse] produced; what the
    registry does with a value that is neither nullish nor a [string[]] is not
    modelled ([None] here, and [update] then ends in [OutsideDeclaredType]). *)
Definition nullish_or (fetched : option JSONValue) : option (list string) :=
  match fetched with
  | None | Some JNull => Some []
  | Some j => as_string_array j
  end.

(** The test of line 65 on the previous cache (as a [Set]) and the new one. *)
Definition differs (current : gset string) (value : list string) : bool :=
  negb (size current =? length value)
  || negb (forallb (λ id, bool_decide (id ∈ current)) value).

Section Registry.
Context `{J : JSON} (sc : Scope).

(** Lines 41-58.  The method reads [this.value] and never assigns it: the
    fields are an argument and not a result. *)
Definition setAllowedAccess (this : Fields) (account : AccountInfo)
    (allowed : bool) : Promise unit :=
  if allowed then
    if bool_decide (homeAccountId account ∈ value this) then resolve tt
    else
      _ ← AccountAccessSecretStorage.store sc (value this ++ [homeAccountId account]);
      resolve tt
  else
    let newValue := filter (λ id, id ≠ homeAccountId account) (value this) in
    if length newValue =? length (value this) then resolve tt
    else if negb (length newValue =? 0)
    then AccountAccessSecretStorage.store sc newValue
    else AccountAccessSecretStorage.delete sc.

(** Lines 60-68.  [update] resolves with the fields as it leaves them; when
    it rejects, the rejection comes before the assignment of line 64 and the
    fields are as before. *)
Definition update (this : Fields) : Promise Fields :=
  let current : gset string := list_to_set (value this) in
  fetched ← AccountAccessSecretStorage.get sc;
  match nullish_or fetched with
  | Some value =>
    let this := mkFields value (fired this) in
    if differs current value then resolve (fire this) else resolve this
  | None => reject OutsideDeclaredType
  end.

Definition initialize (this : Fields) : Promise Fields := update this.

(** The subscription of line 30: a change of the backend under [e_key]
    reaches [update] when the ledger re-emits it. *)
Definition on_secret_change (e_key : string) (this : Fields) : Promise Fields :=
  if AccountAccessSecretStorage.onDidChange_fires sc e_key
  then update this else resolve this.
End Registry.
End ScopedAccountAccess.

(** ** A reference instance of the JSON interface

    [RefJSON.parse] follows the JSON grammar (ECMA-404) and
    [RefJSON.stringify] follows [QuoteJSONString] of ECMA-262, on strings
    whose code units are below 256, one [ascii] each.  A number is kept as its
    lexeme.  An escape [\uXXXX] above [00FF] names no such unit and is
    not covered: [RefJSON.parse] gives [None] for it. *)
Module RefJSON.

Local Open Scope char_scope.

Definition dq : ascii := "034".
Definition backslash : ascii := "092".

Definition is_ws (c : ascii) : bool :=
  match c with
  | " " | "009" | "010" | "013" => true
  | _ => false
  end.

Fixpoint skip_ws (s : string) : string :=
  match s with
  | String c rest => if is_ws c then skip_ws rest else s
  | EmptyString => s
  end.

Definition is_digit (c : ascii) : bool :=
  let n := N_of_ascii c in ((48 <=? n) && (n <=? 57))%N.

(** The longest prefix of digits, and what follows it. *)
Fixpoint digits (s : string) : string * string :=
  match s with
  | String c rest =>
    if is_digit c then let '(ds, r) := digits rest in (String c ds, r)
    else (EmptyString, s)
  | EmptyString => (EmptyString, s)
  end.

Definition digits1 (s : string) : option (string * string) :=
  match digits s with
  | (EmptyString, _) => None
  | (ds, r) => Some (ds, r)
  end.

Definition fraction (s : string) : option (string * string) :=
  match s with
  | String "." rest =>
    '(ds, r) ← digits1 rest; Some (String "." ds, r)
  | _ => Some (EmptyString, s)
  end.

Definition exponent (s : string) : option (string * string) :=
  match s with
  | String e rest =>
    if bool_decide (e = "e" ∨ e = "E") then
      match rest with
      | String sg rest' =>
        if bool_decide (sg = "+" ∨ sg = "-")
        then '(ds, r) ← digits1 rest'; Some (String e (String sg ds), r)
        else '(ds, r) ← digits1 rest; Some (String e ds, r)
      | EmptyString => None
      end
    else Some (EmptyString, s)
  | EmptyString => Some (EmptyString, s)
  end.

Definition integer (s : string) : option (string * string) :=
  match s with
  | String "0" rest => Some (String "0" EmptyString, rest)
  | _ => digits1 s
  end.

Definition number (s : string) : option (string * string) :=
  let '(sign, s) := match s with
                    | String "-" rest => (String "-" EmptyString, rest)
                    | _ => (EmptyString, s)
                    end in
  '(i, s) ← integer s;
  '(f, s) ← fraction s;
  '(e, s) ← exponent s;
  Some (sign +:+ i +:+ f +:+ e, s).

Definition hexval (c : ascii) : option N :=
  let n := N_of_ascii c in
  if ((48 <=? n) && (n <=? 57))%N then Some (n - 48)%N
  else if ((97 <=? n) && (n <=? 102))%N then Some (n - 87)%N
  else if ((65 <=? n) && (n <=? 70))%N then Some (n - 55)%N
  else None.

Definition unit_of_hex (a b c d : ascii) : option ascii :=
  a ← hexval a; b ← hexval b; c ← hexval c; d ← hexval d;
  if bool_decide (a = 0%N ∧ b = 0%N) then Some (ascii_of_N (16 * c + d)) else None.

Definition simple_escape (e : ascii) : option ascii :=
  match e with
  | "034" => Some dq
  | "092" => Some backslash
  | "/" => Some "/"
  | "b" => Some "008"
  | "f" => Some "012"
  | "n" => Some "010"
  | "r" => Some "013"
  | "t" => Some "009"
  | _ => None
  end.

(** The characters of a string literal after its opening quote, up to the
    closing one. *)
Fixpoint string_body (s : string) : option (string * string) :=
  match s with
  | EmptyString => None
  | String c rest =>
    if bool_decide (c = dq) then Some (EmptyString, rest)
    else if bool_decide (c = backslash) then
      match rest with
      | String "u" (String h1 (String h2 (String h3 (String h4 rest')))) =>
        u ← unit_of_hex h1 h2 h3 h4;
        '(t, r) ← string_body rest'; Some (String u t, r)
      | String e rest' =>
        u ← simple_escape e;
        '(t, r) ← string_body rest'; Some (String u t, r)
      | EmptyString => None
      end
    else if (N_of_ascii c <? 32)%N then None
    else '(t, r) ← string_body rest; Some (String c t, r)
  end.

Fixpoint expect (lit s : string) : option string :=
  match lit, s with
  | EmptyString, _ => Some s
  | String a lit', String b s' => if bool_decide (a = b) then expect lit' s' else None
  | String _ _, EmptyString => None
  end.

(** [value fuel s] reads one JSON value at the head of [s]; [elements] and
    [members] read what follows an opening bracket or a comma.  Every call
    uses up one unit of [fuel]. *)
Fixpoint value (fuel : nat) (s : string) : option (JSONValue * string) :=
  match fuel with
  | O => None
  | S fuel =>
    match skip_ws s with
    | String "[" rest =>
      match skip_ws rest with
      | String "]" rest' => Some (JArray [], rest')
      | _ => '(items, r) ← elements fuel rest; Some (JArray items, r)
      end
    | String "{" rest =>
      match skip_ws rest with
      | String "}" rest' => Some (JObject [], rest')
      | _ => '(ms, r) ← members fuel rest; Some (JObject ms, r)
      end
    | String "034" rest => '(t, r) ← string_body rest; Some (JString t, r)
    | String "t" _ => r ← expect "true" (skip_ws s); Some (JBool true, r)
    | String "f" _ => r ← expect "false" (skip_ws s); Some (JBool false, r)
    | String "n" _ => r ← expect "null" (skip_ws s); Some (JNull, r)
    | _ => '(lexeme, r) ← number (skip_ws s); Some (JNumber lexeme, r)
    end
  end
with elements (fuel : nat) (s : string) : option (list JSONValue * string) :=
  match fuel with
  | O => None
  | S fuel =>
    '(item, r) ← value fuel s;
    match skip_ws r with
    | String "," rest => '(items, r') ← elements fuel rest; Some (item :: items, r')
    | String "]" rest => Some ([item], rest)
    | _ => None
    end
  end
with members (fuel : nat) (s : string) : option (list (string * JSONValue) * string) :=
  match fuel with
  | O => None
  | S fuel =>
    match skip_ws s with
    | String "034" rest =>
      '(name, r) ← string_body rest;
      match skip_ws r with
      | String ":" rest =>
        '(item, r') ← value fuel rest;
        match skip_ws r' with
        | String "," rest' => '(ms, r'') ← members fuel rest'; Some ((name, item) :: ms, r'')
        | String "}" rest' => Some ([(name, item)], rest')
        | _ => None
        end
      | _ => None
      end
    | _ => None
    end
  end.

(** [JSON.parse]: one value, then nothing but white space. *)
Definition parse (text : string) : option JSONValue :=
  '(j, r) ← value (S (String.length text)) text;
  match skip_ws r with
  | EmptyString => Some j
  | _ => None
  end.

Definition hex (n : N) : ascii :=
  ascii_of_N (if (n <? 10)%N then 48 + n else 87 + n).

(** [QuoteJSONString] on one code unit. *)
Definition quote_unit (c : ascii) : string :=
  let n := N_of_ascii c in
  if (n =? 8)%N then "\b"
  else if (n =? 9)%N then "\t"
  else if (n =? 10)%N then "\n"
  else if (n =? 12)%N then "\f"
  else if (n =? 13)%N then "\r"
  else if (n =? 34)%N then String backslash (String dq EmptyString)
  else if (n =? 92)%N then String backslash (String backslash EmptyString)
  else if (n <? 32)%N then "\u00" +:+ String (hex (n / 16)) (String (hex (n mod 16)) EmptyString)
  else String c EmptyString.

Fixpoint quote_units (s : string) : string :=
  match s with
  | EmptyString => EmptyString
  | String c rest => quote_unit c +:+ quote_units rest
  end.

Definition quote (s : string) : string :=
  String dq (quote_units s +:+ String dq EmptyString).

Fixpoint join (l : list string) : string :=
  match l with
  | [] => EmptyString
  | [x] => quote x
  | x :: rest => quote x +:+ "," +:+ join rest
  end.

(** [JSON.stringify] on a [string[]]. *)
Definition stringify (l : list string) : string :=
  "[" +:+ join l +:+ "]".

Definition json : JSON := {|
  JSON_parse := parse;
  JSON_stringify := stringify
|}.

End RefJSON.

(** ** Sample scope, accounts and backends *)
Module Sample.

Definition scope : Scope := mkScope "azure" "client" "organizations".

Definition A : AccountInfo := mkAccountInfo "A".

(** A backend with the given content, no call made yet. *)
Definition backend (content : gmap string string) (faults : list bool) : SecretStorage :=
  mkSecretStorage content [] faults.

(** The text [["X"]]. *)
Definition X_text : string := RefJSON.stringify ["X"].

(** Only the legacy key is populated, and the third backend call, the
    forward write of [get()], is rejected. *)
Definition legacy_only_write_rejected : SecretStorage :=
  backend {[ _legacyKey scope := X_text ]} [false; false; true].

Definition legacy_only : SecretStorage :=
  backend {[ _legacyKey scope := X_text ]} [].

(** The current key holds the JSON text [42]. *)
Definition current_is_number : SecretStorage :=
  backend {[ _key scope := "42" ]} [].

(** The current key holds the text [["a","a"]]. *)
Definition current_has_duplicate : SecretStorage :=
  backend {[ _key scope := RefJSON.stringify ["a"; "a"] ]} [].

Definition empty : SecretStorage := backend ∅ [].

(** The current key holds the text [{], which is no JSON text. *)
Definition current_unparsable : SecretStorage :=
  backend {[ _key scope := "{" ]} [].

(** Both keys hold the empty string. *)
Definition both_empty_strings : SecretStorage :=
  backend {[ _key scope := EmptyString; _legacyKey scope := EmptyString ]} [].

(** Another window has allowed account [A]. *)
Definition A_allowed_elsewhere : SecretStorage :=
  backend {[ _key scope := RefJSON.stringify ["A"];
             _legacyKey scope := RefJSON.stringify ["A"] ]} [].

End Sample.

(** * Properties *)

(** ** Strings *)

#[local] Arguments String.append : simpl nomatch.

Lemma append_assoc (s t u : string) : (s +:+ t) +:+ u = s +:+ t +:+ u.
Proof. induction s as [|c s IH]; cbn [String.append]; congruence. Qed.

Lemma length_append (s t : string) :
  String.length (s +:+ t) = String.length s + String.length t.
Proof. induction s as [|c s IH]; cbn [String.append String.length]; lia. Qed.

(** The two keys of a scope are never the same string: the legacy key is the
    current key followed by a dash and more. *)
Lemma key_ne_legacyKey (sc : Scope) : _key sc ≠ _legacyKey sc.
Proof.
  unfold _key, _legacyKey. intros Heq.
  apply (inj (String.append "accounts-")) in Heq.
  apply (f_equal String.length) in Heq.
  rewrite length_append in Heq. simpl in Heq. lia.
Qed.

(** ** The reference instance satisfies the laws *)

Module RefJSONFacts.
Import RefJSON.

Lemma string_body_quote_unit (c : ascii) (s : string) :
  string_body (quote_unit c +:+ s)
  = '(t, r) ← string_body s; Some (String c t, r).
Proof. destruct c as [[] [] [] [] [] [] [] []]; reflexivity. Qed.

Lemma string_body_quote_units (x rest : string) :
  string_body (quote_units x +:+ String dq rest) = Some (x, rest).
Proof.
  induction x as [|c x IH]; cbn [quote_units]; [done|].
  by rewrite append_assoc, string_body_quote_unit, IH.
Qed.

Lemma value_quote (fuel : nat) (x rest : string) :
  value (S fuel) (quote x +:+ rest) = Some (JString x, rest).
Proof.
  unfold quote. cbn [String.append value skip_ws is_ws dq].
  rewrite append_assoc. cbn [String.append].
  by rewrite string_body_quote_units.
Qed.

Lemma elements_S (fuel : nat) (s : string) :
  elements (S fuel) s
  = '(item, r) ← value fuel s;
    match skip_ws r with
    | String ","%char rest => '(items, r') ← elements fuel rest; Some (item :: items, r')
    | String "]"%char rest => Some ([item], rest)
    | _ => None
    end.
Proof. reflexivity. Qed.

Lemma elements_join (l : list string) (x : string) (fuel : nat) (rest : string) :
  length l < fuel →
  elements (S fuel) (join (x :: l) +:+ String "]" rest)
  = Some (JString <$> (x :: l), rest).
Proof.
  revert x fuel. induction l as [|y l IH]; intros x fuel Hfuel;
    (destruct fuel as [|fuel]; [simpl in Hfuel; lia|]); rewrite elements_S.
  - cbn [join]. by rewrite value_quote.
  - change (join (x :: y :: l)) with (quote x +:+ "," +:+ join (y :: l)).
    rewrite append_assoc, value_quote, append_assoc.
    cbn [String.append mbind option_bind skip_ws is_ws].
    rewrite IH by (simpl in Hfuel; lia). done.
Qed.

Lemma length_join (l : list string) : length l ≤ String.length (join l).
Proof.
  induction l as [|x [|y l] IH]; [simpl; lia | simpl; lia |].
  change (join (x :: y :: l)) with (quote x +:+ "," +:+ join (y :: l)).
  rewrite !length_append. simpl in *. lia.
Qed.

Lemma parse_stringify (l : list string) :
  parse (stringify l) = Some (string_array l).
Proof.
  unfold parse, stringify, string_array.
  destruct l as [|x l]; [reflexivity|].
  cbn [String.append String.length value skip_ws is_ws].
  assert (Hskip : ∀ s, skip_ws (join (x :: l) +:+ s) = join (x :: l) +:+ s).
  { intros s. destruct l; reflexivity. }
  rewrite Hskip.
  assert (Hhead : ∃ s, join (x :: l) +:+ "]" = String dq s).
  { destruct l; eexists; reflexivity. }
  destruct Hhead as [s Hs]. rewrite Hs. cbn [dq]. rewrite <- Hs.
  rewrite length_append.
  rewrite elements_join; [done|].
  pose proof (length_join (x :: l)) as Hlen. simpl in *. lia.
Qed.

Lemma laws : JSONLaws json.
Proof. split; [reflexivity | exact parse_stringify]. Qed.

End RefJSONFacts.

(** ** The backend *)

Lemma next_calls_resolve_cases (n : nat) (st : SecretStorage) :
  next_calls_resolve (S n) st →
  faults st = [] ∨ ∃ rest, faults st = false :: rest ∧ Forall (λ b, b = false) (take n rest).
Proof.
  unfold next_calls_resolve. destruct (faults st) as [|b rest]; [by left|].
  rewrite firstn_cons. intros [-> Hrest]%Forall_cons. right. by exists rest.
Qed.

Lemma next_calls_resolve_le (n m : nat) (st : SecretStorage) :
  n ≤ m → next_calls_resolve m st → next_calls_resolve n st.
Proof.
  unfold next_calls_resolve. intros Hle Hm.
  replace n with (n `min` m) by lia. rewrite <- take_take. by apply Forall_take.
Qed.

Lemma next_calls_resolve_drop (n k : nat) (m : gmap string string)
    (log : list SecretOp) (st : SecretStorage) :
  next_calls_resolve (n + k) st →
  next_calls_resolve k (mkSecretStorage m log (drop n (faults st))).
Proof.
  unfold next_calls_resolve. simpl. intros Hnk.
  rewrite take_drop_commute. by apply Forall_drop.
Qed.

Lemma calls_since_app (st st' : SecretStorage) (ops : list SecretOp) :
  calls st' = calls st ++ ops → calls_since st st' = ops.
Proof. unfold calls_since. intros ->. by rewrite drop_app_length. Qed.

Lemma backend_call_resolves {A} (op : SecretOp)
    (effect : gmap string string → A * gmap string string) (n : nat) (st : SecretStorage) :
  next_calls_resolve (S n) st →
  backend_call op effect st
  = (Fulfilled (effect (secrets st)).1,
     mkSecretStorage (effect (secrets st)).2 (calls st ++ [op]) (drop 1 (faults st)))
  ∧ next_calls_resolve n
      (mkSecretStorage (effect (secrets st)).2 (calls st ++ [op]) (drop 1 (faults st))).
Proof.
  intros [Hf | (rest & Hf & Hrest)]%next_calls_resolve_cases;
    unfold backend_call, next_calls_resolve; rewrite Hf;
    destruct (effect (secrets st)) as [a m]; simpl; split; try done.
  by rewrite take_nil.
Qed.

Lemma backend_call_rejects {A} (op : SecretOp)
    (effect : gmap string string → A * gmap string string) (st : SecretStorage) :
  faults st !! 0 = Some true →
  backend_call op effect st
  = (Rejected (BackendRejected op),
     mkSecretStorage (secrets st) (calls st ++ [op]) (drop 1 (faults st))).
Proof.
  unfold backend_call. destruct (faults st) as [|[] rest]; simpl; by intros.
Qed.

Lemma secretStorage_get_resolves (key : string) (n : nat) (st : SecretStorage) :
  next_calls_resolve (S n) st →
  let st' := mkSecretStorage (secrets st) (calls st ++ [SecretGet key]) (drop 1 (faults st)) in
  secretStorage_get key st = (Fulfilled (secrets st !! key), st') ∧ next_calls_resolve n st'.
Proof. intros Hok. exact (backend_call_resolves (SecretGet key) (λ m, (m !! key, m)) n st Hok). Qed.

Lemma secretStorage_store_resolves (key value : string) (n : nat) (st : SecretStorage) :
  next_calls_resolve (S n) st →
  let st' := mkSecretStorage (<[key := value]> (secrets st))
               (calls st ++ [SecretStore key value]) (drop 1 (faults st)) in
  secretStorage_store key value st = (Fulfilled tt, st') ∧ next_calls_resolve n st'.
Proof.
  intros Hok.
  exact (backend_call_resolves (SecretStore key value) (λ m, (tt, <[key := value]> m)) n st Hok).
Qed.

Lemma truthy_Some (value : option string) (s : string) :
  truthy value = Some s ↔ value = Some s ∧ s ≠ "".
Proof.
  unfold truthy. destruct value as [t|]; [|split; [done | by intros [? _]]].
  destruct (decide (t = "")) as [->|Hne]; split; try done.
  - by intros [[= <-] ?].
  - by intros [= <-].
  - by intros [[= <-] ?].
Qed.

(** ** The ledger *)

Section LedgerProperties.
Context `{J : JSON} (sc : Scope).

Import AccountAccessSecretStorage.

(** [get] as its reads resolve: the outcome on the current key. *)
Lemma get_current (st : SecretStorage) (raw : string) :
  truthy (secrets st !! _key sc) = Some raw →
  next_calls_resolve 1 st →
  get sc st
  = (match JSON_parse raw with
     | Some j => Fulfilled (Some j)
     | None => Rejected SyntaxError
     end,
     mkSecretStorage (secrets st) (calls st ++ [SecretGet (_key sc)]) (drop 1 (faults st))).
Proof.
  intros Hraw Hok. unfold get, mbind, Promise_bind, await.
  destruct (secretStorage_get_resolves (_key sc) 0 st Hok) as [-> _].
  rewrite Hraw. unfold parse.
  by destruct (JSON_parse raw).
Qed.

(** [get] when the current key holds nothing truthy: the two reads. *)
Lemma get_fallback (st : SecretStorage) :
  truthy (secrets st !! _key sc) = None →
  next_calls_resolve 2 st →
  get sc st
  = let st2 := mkSecretStorage (secrets st)
                 (calls st ++ [SecretGet (_key sc); SecretGet (_legacyKey sc)])
                 (drop 2 (faults st)) in
    match truthy (secrets st !! _legacyKey sc) with
    | Some legacyValue =>
      match JSON_parse legacyValue with
      | Some parsedValue =>
        match secretStorage_store (_key sc) legacyValue st2 with
        | (Fulfilled _, st3) => (Fulfilled (Some parsedValue), st3)
        | (Rejected e, st3) => (Rejected e, st3)
        end
      | None => (Rejected SyntaxError, st2)
      end
    | None => (Fulfilled None, st2)
    end.
Proof.
  intros Hcur Hok. unfold get, mbind, Promise_bind, await.
  destruct (secretStorage_get_resolves (_key sc) 1 st Hok) as [-> Hok1].
  rewrite Hcur.
  destruct (secretStorage_get_resolves (_legacyKey sc) 0 _ Hok1) as [-> _].
  cbn [secrets calls faults]. rewrite <- app_assoc, drop_drop. simpl.
  destruct (truthy (secrets st !! _legacyKey sc)) as [legacyValue|]; [|done].
  unfold parse. destruct (JSON_parse legacyValue) as [parsedValue|]; [|done].
  unfold resolve. simpl.
  by destruct (secretStorage_store _ _ _) as [[] ?].
Qed.

(** C5 (lines 97-111): with the current key absent and a well-formed
    serialized list [l] under the legacy key, [get()], its backend calls
    resolving, returns [l], stores the same raw string under the current key
    and makes no write to the legacy key, whose value stays; with both keys
    absent, [get()] returns absent. *)
Theorem get_migrates_legacy_forward `{!JSONLaws J} (st : SecretStorage) :
  (∀ raw l,
     secrets st !! _key sc = None →
     secrets st !! _legacyKey sc = Some raw →
     JSON_parse raw = Some (string_array l) →
     next_calls_resolve 3 st →
     ∃ st',
       get sc st = (Fulfilled (Some (string_array l)), st')
       ∧ secrets st' = <[_key sc := raw]> (secrets st)
       ∧ secrets st' !! _key sc = Some raw
       ∧ secrets st' !! _legacyKey sc = Some raw
       ∧ calls_since st st'
         = [SecretGet (_key sc); SecretGet (_legacyKey sc); SecretStore (_key sc) raw]
       ∧ Forall (λ op, written_key op ≠ Some (_legacyKey sc)) (calls_since st st'))
  ∧ (secrets st !! _key sc = None →
     secrets st !! _legacyKey sc = None →
     next_calls_resolve 2 st →
     ∃ st',
       get sc st = (Fulfilled None, st')
       ∧ secrets st' = secrets st
       ∧ calls_since st st' = [SecretGet (_key sc); SecretGet (_legacyKey sc)]).
Proof.
  split.
  - intros raw l Hcur Hleg Hparse Hok.
    assert (Hraw : raw ≠ "").
    { intros ->. rewrite JSON_parse_empty in Hparse. done. }
    rewrite get_fallback;
      [| by rewrite Hcur | apply (next_calls_resolve_le 2 3); [lia | done]].
    cbv zeta. rewrite Hleg. cbn [truthy]. rewrite decide_False by done.
    rewrite Hparse.
    edestruct (secretStorage_store_resolves (_key sc) raw 0) as [-> _];
      [by apply (next_calls_resolve_drop 2 1)|].
    eexists. split; [done|]. cbn [secrets calls faults].
    assert (Hcalls : calls_since st
      (mkSecretStorage (<[_key sc := raw]> (secrets st))
         ((calls st ++ [SecretGet (_key sc); SecretGet (_legacyKey sc)])
          ++ [SecretStore (_key sc) raw])
         (drop 1 (drop 2 (faults st))))
      = [SecretGet (_key sc); SecretGet (_legacyKey sc); SecretStore (_key sc) raw]).
    { apply calls_since_app. simpl. by rewrite <- app_assoc. }
    rewrite Hcalls. repeat split.
    + by rewrite lookup_insert_eq.
    + rewrite lookup_insert_ne by apply key_ne_legacyKey. done.
    + pose proof (key_ne_legacyKey sc) as Hne.
      repeat constructor; simpl; congruence.
  - intros Hcur Hleg Hok.
    rewrite get_fallback; [| by rewrite Hcur | done].
    cbv zeta. rewrite Hleg. cbn [truthy].
    eexists. split; [done|]. split; [done|].
    by apply calls_since_app.
Qed.

(** The two writes of [store] and the two deletes of [delete] are always
    both issued, whatever becomes of them. *)
Lemma store_calls (l : list string) (st : SecretStorage) :
  calls (store sc l st).2
  = calls st ++ [SecretStore (_key sc) (JSON_stringify l);
                 SecretStore (_legacyKey sc) (JSON_stringify l)].
Proof.
  unfold store, mbind, Promise_bind, await, Promise_all2, secretStorage_store, backend_call.
  destruct (faults st) as [|[] [|[] rest]]; simpl; by rewrite <- app_assoc.
Qed.

Lemma store_fulfilled (l : list string) (st st' : SecretStorage) :
  store sc l st = (Fulfilled tt, st') →
  secrets st'
  = <[_legacyKey sc := JSON_stringify l]> (<[_key sc := JSON_stringify l]> (secrets st)).
Proof.
  unfold store, mbind, Promise_bind, await, Promise_all2, secretStorage_store, backend_call.
  destruct (faults st) as [|[] [|[] rest]]; simpl; intros [= <-]; done.
Qed.

Lemma delete_calls (st : SecretStorage) :
  calls (delete sc st).2
  = calls st ++ [SecretDelete (_key sc); SecretDelete (_legacyKey sc)].
Proof.
  unfold delete, mbind, Promise_bind, await, Promise_all2, secretStorage_delete, backend_call.
  destruct (faults st) as [|[] [|[] rest]]; simpl; by rewrite <- app_assoc.
Qed.

Lemma delete_fulfilled (st st' : SecretStorage) :
  delete sc st = (Fulfilled tt, st') →
  secrets st' = base.delete (_legacyKey sc) (base.delete (_key sc) (secrets st)).
Proof.
  unfold delete, mbind, Promise_bind, await, Promise_all2, secretStorage_delete, backend_call.
  destruct (faults st) as [|[] [|[] rest]]; simpl; intros [= <-]; done.
Qed.

Lemma store_same_content (l : list string) (st st' : SecretStorage) :
  store sc l st = (Fulfilled tt, st') →
  secrets st' !! _key sc = Some (JSON_stringify l)
  ∧ secrets st' !! _legacyKey sc = Some (JSON_stringify l).
Proof.
  intros ->%store_fulfilled. split.
  - rewrite lookup_insert_ne by (apply not_eq_sym, key_ne_legacyKey).
    by rewrite lookup_insert_eq.
  - by rewrite lookup_insert_eq.
Qed.

(** C1, as the code has it (lines 103-109): when the current key is absent,
    the legacy key holds a parsable value and the write of that value into
    the current key is rejected by the backend, [get()] rejects with that
    failure; it returns nothing, and the backend content is as before. *)
Theorem get_propagates_migration_failure (st : SecretStorage) (raw : string) (j : JSONValue) :
  secrets st !! _key sc = None →
  secrets st !! _legacyKey sc = Some raw →
  raw ≠ "" →
  JSON_parse raw = Some j →
  next_calls_resolve 2 st →
  faults st !! 2 = Some true →
  ∃ st',
    get sc st = (Rejected (BackendRejected (SecretStore (_key sc) raw)), st')
    ∧ secrets st' = secrets st
    ∧ calls_since st st'
      = [SecretGet (_key sc); SecretGet (_legacyKey sc); SecretStore (_key sc) raw].
Proof.
  intros Hcur Hleg Hraw Hparse Hok Hfail.
  rewrite get_fallback; [| by rewrite Hcur | done].
  cbv zeta. rewrite Hleg. cbn [truthy]. rewrite decide_False by done.
  rewrite Hparse. unfold secretStorage_store.
  rewrite backend_call_rejects by (simpl; by rewrite lookup_drop).
  eexists. split; [done|]. split; [done|].
  apply calls_since_app. simpl. by rewrite <- app_assoc.
Qed.

(** C6, as the code has it (lines 98-108): when the key that [get()] reads
    holds a non-empty string that [JSON.parse] refuses, [get()] rejects with
    the [SyntaxError] and writes nothing; a string that [JSON.parse] accepts
    is returned as parsed, whatever its shape. *)
Theorem get_rejects_unparsable (st : SecretStorage) (raw : string) :
  (JSON_parse raw = None →
   truthy (secrets st !! _key sc) = Some raw →
   next_calls_resolve 1 st →
   ∃ st', get sc st = (Rejected SyntaxError, st') ∧ secrets st' = secrets st)
  ∧ (JSON_parse raw = None →
     truthy (secrets st !! _key sc) = None →
     truthy (secrets st !! _legacyKey sc) = Some raw →
     next_calls_resolve 2 st →
     ∃ st', get sc st = (Rejected SyntaxError, st') ∧ secrets st' = secrets st)
  ∧ (∀ j, JSON_parse raw = Some j →
     truthy (secrets st !! _key sc) = Some raw →
     next_calls_resolve 1 st →
     ∃ st', get sc st = (Fulfilled (Some j), st') ∧ secrets st' = secrets st).
Proof.
  repeat split.
  - intros Hparse Hcur Hok. rewrite (get_current st raw) by done.
    rewrite Hparse. by eexists.
  - intros Hparse Hcur Hleg Hok. rewrite get_fallback by done.
    cbv zeta. rewrite Hleg, Hparse. by eexists.
  - intros j Hparse Hcur Hok. rewrite (get_current st raw) by done.
    rewrite Hparse. by eexists.
Qed.

(** [get] sees the backend content only through the truthiness tests on the
    two keys. *)
Lemma get_reads_truthy (st1 st2 : SecretStorage) :
  truthy (secrets st1 !! _key sc) = truthy (secrets st2 !! _key sc) →
  truthy (secrets st1 !! _legacyKey sc) = truthy (secrets st2 !! _legacyKey sc) →
  calls st1 = calls st2 →
  faults st1 = faults st2 →
  (get sc st1).1 = (get sc st2).1 ∧ calls (get sc st1).2 = calls (get sc st2).2.
Proof.
  intros Hcur Hleg Hcalls Hfaults.
  unfold get, mbind, Promise_bind, await, secretStorage_get, secretStorage_store,
    backend_call, parse, resolve, reject.
  rewrite Hfaults, Hcalls.
  destruct (faults st2) as [|[] [|[] [|[] rest]]]; cbn [secrets calls faults fst snd];
    rewrite ?Hcur; try done;
    destruct (truthy (secrets st2 !! _key sc)) as [value|];
    try (by destruct (JSON_parse value));
    cbn [secrets calls faults fst snd]; rewrite ?Hleg; try done;
    destruct (truthy (secrets st2 !! _legacyKey sc)) as [legacyValue|]; try done;
    by destruct (JSON_parse legacyValue).
Qed.

(** C10 (lines 99 and 104): an empty string under the current key is
    treated as an absent current key, and an empty string under the legacy
    key as an absent legacy key: [get()] settles the same way and makes the
    same backend calls as on the backend without that key; with empty strings
    under both keys and its reads resolving, [get()] returns absent; and
    [get()] never hands the empty string to [JSON.parse]: its run is the same
    under any [JSON.parse] that differs on the empty string only. *)
Theorem get_empty_string_as_absent (st : SecretStorage) :
  (secrets st !! _key sc = Some "" →
   let absent := mkSecretStorage (base.delete (_key sc) (secrets st)) (calls st) (faults st) in
   (get sc st).1 = (get sc absent).1 ∧ calls (get sc st).2 = calls (get sc absent).2)
  ∧ (secrets st !! _legacyKey sc = Some "" →
     let absent := mkSecretStorage (base.delete (_legacyKey sc) (secrets st)) (calls st) (faults st) in
     (get sc st).1 = (get sc absent).1 ∧ calls (get sc st).2 = calls (get sc absent).2)
  ∧ (secrets st !! _key sc = Some "" →
     secrets st !! _legacyKey sc = Some "" →
     next_calls_resolve 2 st →
     ∃ st',
       get sc st = (Fulfilled None, st')
       ∧ secrets st' = secrets st
       ∧ calls_since st st' = [SecretGet (_key sc); SecretGet (_legacyKey sc)])
  ∧ (∀ J' : JSON,
     (∀ text, text ≠ "" → @JSON_parse J' text = @JSON_parse J text) →
     @get J' sc st = @get J sc st).
Proof.
  pose proof (key_ne_legacyKey sc) as Hne.
  split; [|split; [|split]].
  - intros Hcur absent. apply get_reads_truthy; try done; subst absent; simpl.
    + by rewrite Hcur, lookup_delete_eq.
    + by rewrite lookup_delete_ne.
  - intros Hleg absent. apply get_reads_truthy; try done; subst absent; simpl.
    + by rewrite lookup_delete_ne.
    + by rewrite Hleg, lookup_delete_eq.
  - intros Hcur Hleg Hok.
    rewrite get_fallback; [| by rewrite Hcur | done].
    cbv zeta. rewrite Hleg. cbn [truthy]. rewrite decide_True by done.
    eexists. split; [done|]. split; [done|].
    by apply calls_since_app.
  - intros J' Hagree.
    unfold get, mbind, Promise_bind, await, parse.
    destruct (secretStorage_get (_key sc) st) as [[value|e] st1]; [|done].
    destruct (truthy value) as [raw|] eqn:Hraw.
    { apply truthy_Some in Hraw as [_ Hraw]. by rewrite Hagree. }
    destruct (secretStorage_get (_legacyKey sc) st1) as [[legacyValue|e] st2]; [|done].
    destruct (truthy legacyValue) as [raw|] eqn:Hraw'; [|done].
    apply truthy_Some in Hraw' as [_ Hraw']. by rewrite Hagree.
Qed.

End LedgerProperties.

(** ** The registry *)

Lemma as_string_array_string_array (l : list string) :
  as_string_array (string_array l) = Some l.
Proof. unfold as_string_array, string_array. by apply mapM_fmap_Some. Qed.

Lemma length_filter_ne (A : string) (l : list string) :
  length (filter (λ id, id ≠ A) l) = length l ↔ A ∉ l.
Proof.
  split.
  - intros Hlen HA.
    pose proof (length_filter_lt (λ id, id ≠ A) l A HA) as Hlt.
    assert (¬ A ≠ A) as Hn by (intros ?; done).
    specialize (Hlt Hn). lia.
  - intros HA. induction l as [|x l IH]; [done|].
    apply not_elem_of_cons in HA as [Hx Hl].
    rewrite filter_cons, decide_True by done. simpl. by rewrite IH.
Qed.

(** The test of line 65 decides set equality when the new list has no
    duplicate. *)
Lemma differs_true_iff (cached fresh : list string) :
  NoDup fresh →
  ScopedAccountAccess.differs (list_to_set cached) fresh = true
  ↔ list_to_set fresh ≠@{gset string} list_to_set cached.
Proof.
  intros Hnodup. unfold ScopedAccountAccess.differs.
  rewrite orb_true_iff, !negb_true_iff, Nat.eqb_neq.
  rewrite <- not_true_iff_false, <- Is_true_true, forallb_True, Forall_forall.
  split.
  - intros Hdiff Heq. destruct Hdiff as [Hsize | Hmem].
    + apply Hsize. rewrite <- Heq. by apply size_list_to_set.
    + apply Hmem. intros id Hid. apply bool_decide_pack.
      rewrite <- Heq. by apply elem_of_list_to_set.
  - intros Hne.
    destruct (decide (size (list_to_set cached : gset string) = length fresh)) as [Hsize|];
      [|by left].
    right. intros Hall. apply Hne.
    apply set_subseteq_size_eq.
    + intros id Hid%elem_of_list_to_set.
      by apply Hall, bool_decide_unpack in Hid.
    + rewrite (size_list_to_set fresh) by done. lia.
Qed.

Lemma await_unit (p : Promise unit) (st : SecretStorage) :
  (p ≫= λ _, resolve tt) st = p st.
Proof.
  unfold mbind, Promise_bind, await, resolve. by destruct (p st) as [[[]|e] st'].
Qed.

Lemma calls_since_refl (st : SecretStorage) : calls_since st st = [].
Proof. unfold calls_since. by rewrite drop_all. Qed.

Section RegistryProperties.
Context `{J : JSON} (sc : Scope).

Import ScopedAccountAccess.

(** What [setAllowedAccess(account, true)] does, by cases on the cache. *)
Lemma allow_present (this : Fields) (account : AccountInfo) (st : SecretStorage) :
  homeAccountId account ∈ value this →
  setAllowedAccess sc this account true st = (Fulfilled tt, st).
Proof. intros Hin. unfold setAllowedAccess. by rewrite bool_decide_eq_true_2. Qed.

Lemma allow_absent (this : Fields) (account : AccountInfo) (st : SecretStorage) :
  homeAccountId account ∉ value this →
  setAllowedAccess sc this account true st
  = AccountAccessSecretStorage.store sc (value this ++ [homeAccountId account]) st.
Proof.
  intros Hin. unfold setAllowedAccess. rewrite bool_decide_eq_false_2 by done.
  apply await_unit.
Qed.

(** What [setAllowedAccess(account, false)] does, by cases on the cache. *)
Lemma deny_absent (this : Fields) (account : AccountInfo) (st : SecretStorage) :
  homeAccountId account ∉ value this →
  setAllowedAccess sc this account false st = (Fulfilled tt, st).
Proof.
  intros Hin%length_filter_ne. unfold setAllowedAccess. cbv zeta.
  rewrite Hin, Nat.eqb_refl. done.
Qed.

Lemma deny_present (this : Fields) (account : AccountInfo) (st : SecretStorage) :
  homeAccountId account ∈ value this →
  setAllowedAccess sc this account false st
  = match filter (λ id, id ≠ homeAccountId account) (value this) with
    | [] => AccountAccessSecretStorage.delete sc st
    | newValue => AccountAccessSecretStorage.store sc newValue st
    end.
Proof.
  intros Hin. unfold setAllowedAccess. cbv zeta.
  destruct (Nat.eqb_spec
    (length (filter (λ id, id ≠ homeAccountId account) (value this)))
    (length (value this))) as [Hlen|_].
  { by apply length_filter_ne in Hlen. }
  by destruct (filter _ (value this)).
Qed.

(** C2, as the code has it (lines 60-68): when the list that [update()] reads
    has no duplicate identifier, [update()] fires the registry's change event
    exactly when the set of identifiers read differs from the set of
    identifiers cached before, whatever the order of either list and
    whatever duplicates the cached one has. *)
Theorem update_fires_iff_sets_differ (this : Fields) (st st' : SecretStorage)
    (fetched : option JSONValue) (fresh : list string) :
  AccountAccessSecretStorage.get sc st = (Fulfilled fetched, st') →
  nullish_or fetched = Some fresh →
  NoDup fresh →
  ∃ this',
    update sc this st = (Fulfilled this', st')
    ∧ value this' = fresh
    ∧ (fired this' = S (fired this)
       ↔ list_to_set fresh ≠@{gset string} list_to_set (value this))
    ∧ (fired this' = fired this
       ↔ list_to_set fresh =@{gset string} list_to_set (value this)).
Proof.
  intros Hget Hfresh Hnodup.
  unfold update, mbind, Promise_bind, await. cbv zeta. rewrite Hget, Hfresh.
  pose proof (differs_true_iff (value this) fresh Hnodup) as Hiff.
  destruct (differs (list_to_set (value this)) fresh); unfold resolve, fire;
    eexists; (split; [done|]); simpl; (split; [done|]); split.
  - split; [intros _; by apply Hiff | done].
  - split; [lia | intros Heq; by apply Hiff in Heq].
  - split; [lia | intros Hne%Hiff; done].
  - split; [intros _ | done].
    destruct (decide (list_to_set fresh =@{gset string} list_to_set (value this)));
      [done | by apply Hiff in n].
Qed.

(** C3 (lines 113-120): after a [store(list)] that resolves, the current key
    and the legacy key both hold [JSON.stringify(list)]; hence after a
    [setAllowedAccess] that resolves and has made a store, the two keys hold
    the same serialized list. *)
Theorem dual_write_consistency :
  (∀ list st st',
     AccountAccessSecretStorage.store sc list st = (Fulfilled tt, st') →
     secrets st' !! _key sc = Some (JSON_stringify list)
     ∧ secrets st' !! _legacyKey sc = Some (JSON_stringify list))
  ∧ (∀ this account allowed st st',
       setAllowedAccess sc this account allowed st = (Fulfilled tt, st') →
       (∃ key text, SecretStore key text ∈ calls_since st st') →
       ∃ list,
         secrets st' !! _key sc = Some (JSON_stringify list)
         ∧ secrets st' !! _legacyKey sc = Some (JSON_stringify list)
         ∧ secrets st' !! _key sc = secrets st' !! _legacyKey sc).
Proof.
  split; [apply store_same_content|].
  intros this account allowed st st' Hrun (key & text & Hstore).
  assert (Hvia : ∃ list, AccountAccessSecretStorage.store sc list st = (Fulfilled tt, st')).
  { destruct (decide (homeAccountId account ∈ value this)) as [Hin|Hin];
      destruct allowed.
    - rewrite allow_present in Hrun by done. injection Hrun as <-.
      rewrite calls_since_refl in Hstore. by apply elem_of_nil in Hstore.
    - rewrite deny_present in Hrun by done.
      destruct (filter _ (value this)) as [|x newValue]; [|by eexists].
      pose proof (delete_calls sc st) as Hcalls. rewrite Hrun in Hcalls.
      rewrite (calls_since_app st st' _ Hcalls) in Hstore.
      by repeat (apply elem_of_cons in Hstore as [?|Hstore]; [done|]);
        apply elem_of_nil in Hstore.
    - rewrite allow_absent in Hrun by done. by eexists.
    - rewrite deny_absent in Hrun by done. injection Hrun as <-.
      rewrite calls_since_refl in Hstore. by apply elem_of_nil in Hstore. }
  destruct Hvia as [list [Hcur Hleg]%store_same_content].
  exists list. by rewrite Hcur, Hleg.
Qed.

(** C4 (lines 49-57 and 122-128): a deny that empties the list, as the deny
    of the only member does, calls the ledger's [delete()]: both keys are
    deleted, and nothing is stored, so no serialized empty list is written. *)
Theorem deny_last_deletes (this : Fields) (account : AccountInfo) (st : SecretStorage) :
  value this ≠ [] →
  filter (λ id, id ≠ homeAccountId account) (value this) = [] →
  setAllowedAccess sc this account false st = AccountAccessSecretStorage.delete sc st
  ∧ calls_since st (setAllowedAccess sc this account false st).2
    = [SecretDelete (_key sc); SecretDelete (_legacyKey sc)]
  ∧ (∀ st', setAllowedAccess sc this account false st = (Fulfilled tt, st') →
       secrets st' !! _key sc = None ∧ secrets st' !! _legacyKey sc = None).
Proof.
  intros Hnonempty Hfilter.
  assert (Hin : homeAccountId account ∈ value this).
  { destruct (value this) as [|x l] eqn:Hl; [done|].
    destruct (decide (x = homeAccountId account)) as [->|Hx]; [by left|].
    rewrite filter_cons, decide_True in Hfilter by done. done. }
  rewrite deny_present, Hfilter by done.
  split; [done|]. split.
  - apply calls_since_app, delete_calls.
  - intros st' ->%delete_fulfilled. split.
    + rewrite lookup_delete_ne by (apply not_eq_sym, key_ne_legacyKey).
      by rewrite lookup_delete_eq.
    + by rewrite lookup_delete_eq.
Qed.

(** C8 (lines 49-52): a deny of an account whose identifier is not in the
    cache makes no backend call and leaves the backend as it is;
    [setAllowedAccess] only reads the cache, on any path. *)
Theorem deny_absent_is_noop (this : Fields) (account : AccountInfo) (st : SecretStorage) :
  homeAccountId account ∉ value this →
  setAllowedAccess sc this account false st = (Fulfilled tt, st)
  ∧ calls_since st (setAllowedAccess sc this account false st).2 = [].
Proof.
  intros Hin. rewrite deny_absent by done. split; [done|]. apply calls_since_refl.
Qed.

(** A rejected first read rejects [get]. *)
Lemma get_first_read_rejected (st : SecretStorage) :
  faults st !! 0 = Some true →
  (AccountAccessSecretStorage.get sc st).1 = Rejected (BackendRejected (SecretGet (_key sc))).
Proof.
  intros Hfail. unfold AccountAccessSecretStorage.get, mbind, Promise_bind, await,
    secretStorage_get.
  by rewrite backend_call_rejects.
Qed.

Lemma first_call_cases (st : SecretStorage) :
  faults st !! 0 = Some true ∨ next_calls_resolve 1 st.
Proof.
  unfold next_calls_resolve. destruct (faults st) as [|[] rest]; simpl.
  - right. constructor.
  - by left.
  - right. rewrite take_0. by repeat constructor.
Qed.

Lemma store_twice (s : string) (m : gmap string string) :
  <[_legacyKey sc := s]> (<[_key sc := s]> (<[_legacyKey sc := s]> (<[_key sc := s]> m)))
  = <[_legacyKey sc := s]> (<[_key sc := s]> m).
Proof.
  apply map_eq. intros k.
  destruct (decide (k = _legacyKey sc)) as [->|Hleg]; [by rewrite !lookup_insert_eq|].
  rewrite !(lookup_insert_ne _ (_legacyKey sc)) by done.
  destruct (decide (k = _key sc)) as [->|Hcur]; [by rewrite !lookup_insert_eq|].
  by rewrite !lookup_insert_ne by done.
Qed.

Lemma filter_eq_absent (id : string) (l : list string) :
  id ∉ l → filter (λ x, x = id) l = [].
Proof.
  intros Hin. induction l as [|x l IH]; [done|].
  apply not_elem_of_cons in Hin as [Hx Hl].
  rewrite filter_cons, decide_False by done. by apply IH.
Qed.

(** C7 (lines 41-47): after a first [setAllowedAccess(A, true)] that
    resolves, a second one that resolves leaves the stored content as the
    first left it, be it run on the same cache or, the first having stored,
    on the cache refreshed by [update()], where it does nothing.  When [A] is
    cached already nothing is stored; otherwise the list stored is the cache
    followed by [A]: [A] occurs in it once, and it has no duplicate if the
    cache had none. *)
Theorem allow_twice_as_once (this : Fields) (account : AccountInfo)
    (st st1 : SecretStorage) :
  setAllowedAccess sc this account true st = (Fulfilled tt, st1) →
  (∀ st2, setAllowedAccess sc this account true st1 = (Fulfilled tt, st2) →
     secrets st2 = secrets st1)
  ∧ (JSONLaws J →
     homeAccountId account ∉ value this →
     ∀ this' st2, update sc this st1 = (Fulfilled this', st2) →
       value this' = value this ++ [homeAccountId account]
       ∧ setAllowedAccess sc this' account true st2 = (Fulfilled tt, st2))
  ∧ (homeAccountId account ∈ value this → st1 = st)
  ∧ (homeAccountId account ∉ value this →
     secrets st1 !! _key sc = Some (JSON_stringify (value this ++ [homeAccountId account]))
     ∧ secrets st1 !! _legacyKey sc
       = Some (JSON_stringify (value this ++ [homeAccountId account]))
     ∧ length (filter (λ id, id = homeAccountId account)
                 (value this ++ [homeAccountId account])) = 1
     ∧ (NoDup (value this) → NoDup (value this ++ [homeAccountId account]))).
Proof.
  intros Hfirst. split; [|split; [|split]].
  - intros st2 Hsecond.
    destruct (decide (homeAccountId account ∈ value this)) as [Hin|Hin].
    + rewrite allow_present in Hsecond by done. by injection Hsecond as <-.
    + rewrite allow_absent in Hfirst, Hsecond by done.
      apply store_fulfilled in Hfirst, Hsecond.
      rewrite Hsecond, Hfirst. apply store_twice.
  - intros Hlaws Hin this' st2 Hupdate.
    rewrite allow_absent in Hfirst by done.
    apply store_same_content in Hfirst as [Hcur _].
    assert (Htruthy : truthy (secrets st1 !! _key sc)
                      = Some (JSON_stringify (value this ++ [homeAccountId account]))).
    { apply truthy_Some. split; [done|]. intros Hempty.
      pose proof (JSON_parse_stringify (value this ++ [homeAccountId account])) as Hparse.
      rewrite Hempty, JSON_parse_empty in Hparse. done. }
    unfold update, mbind, Promise_bind, await in Hupdate. cbv zeta in Hupdate.
    destruct (first_call_cases st1) as [Hfail|Hok].
    { apply get_first_read_rejected in Hfail.
      destruct (AccountAccessSecretStorage.get sc st1) as [r st']. simpl in Hfail.
      by rewrite Hfail in Hupdate. }
    rewrite (get_current sc st1 _ Htruthy Hok), JSON_parse_stringify in Hupdate.
    cbn [nullish_or string_array] in Hupdate.
    change (JArray (JString <$> ?l)) with (string_array l) in Hupdate.
    rewrite as_string_array_string_array in Hupdate.
    assert (Hvalue : value this' = value this ++ [homeAccountId account]).
    { destruct (differs _ _); injection Hupdate as <- _; done. }
    split; [done|]. apply allow_present. rewrite Hvalue.
    apply elem_of_app. right. by left.
  - intros Hin. rewrite allow_present in Hfirst by done. by injection Hfirst as <-.
  - intros Hin. rewrite allow_absent in Hfirst by done.
    apply store_same_content in Hfirst as [Hcur Hleg].
    split; [done|]. split; [done|]. split.
    + rewrite filter_app, filter_eq_absent by done.
      by rewrite filter_cons, decide_True.
    + intros Hnodup. apply NoDup_app. split; [done|]. split.
      * intros x Hx [->|[]%elem_of_nil]%elem_of_cons. done.
      * apply NoDup_singleton.
Qed.

End RegistryProperties.

(** C9, as the code has it (lines 21 and 37-39): on a registry whose cache no
    [update()] has assigned yet, [isAllowedAccess] returns [false] for every
    account; the initial cache is the empty list and the membership test is
    total on any cache. *)
Theorem isAllowedAccess_before_any_update (account : AccountInfo) :
  ScopedAccountAccess.isAllowedAccess ScopedAccountAccess.new account = false.
Proof.
  unfold ScopedAccountAccess.isAllowedAccess, ScopedAccountAccess.new.
  cbn [ScopedAccountAccess.value].
  apply bool_decide_eq_false_2, not_elem_of_nil.
Qed.

(** ** The claims at sample inputs *)

Section Samples.
Import Sample AccountAccessSecretStorage ScopedAccountAccess.

#[local] Existing Instance RefJSON.json.

(** C1 as stated fails: only the legacy key holds [["X"]] and the backend
    rejects the forward write; [get()] rejects instead of returning the list. *)
Lemma get_rejects_when_forward_write_fails :
  secrets legacy_only_write_rejected !! _key scope = None
  ∧ secrets legacy_only_write_rejected !! _legacyKey scope = Some X_text
  ∧ JSON_parse X_text = Some (string_array ["X"])
  ∧ (get scope legacy_only_write_rejected).1
    = Rejected (BackendRejected (SecretStore (_key scope) X_text))
  ∧ (get scope legacy_only_write_rejected).1 ≠ Fulfilled (Some (string_array ["X"])).
Proof. repeat split; try (vm_compute; reflexivity). vm_compute. discriminate. Qed.

Lemma get_propagates_migration_failure_witness :
  ∃ st',
    get scope legacy_only_write_rejected
    = (Rejected (BackendRejected (SecretStore (_key scope) X_text)), st')
    ∧ secrets st' = secrets legacy_only_write_rejected
    ∧ calls_since legacy_only_write_rejected st'
      = [SecretGet (_key scope); SecretGet (_legacyKey scope);
         SecretStore (_key scope) X_text].
Proof.
  apply (get_propagates_migration_failure scope legacy_only_write_rejected X_text
           (string_array ["X"])).
  - vm_compute; reflexivity.
  - vm_compute; reflexivity.
  - vm_compute; discriminate.
  - vm_compute; reflexivity.
  - unfold next_calls_resolve. simpl. repeat constructor.
  - reflexivity.
Defined.

(** C2 as stated fails: with ["a"] cached and ["a","a"] read, the event fires
    though the two sets are equal; with ["a","b"] cached and ["a","a"] read,
    it does not fire though they differ. *)
Lemma update_miscounts_duplicates :
  (update scope (mkFields ["a"] 0) current_has_duplicate).1
  = Fulfilled (mkFields ["a"; "a"] 1)
  ∧ list_to_set ["a"; "a"] =@{gset string} list_to_set ["a"]
  ∧ (update scope (mkFields ["a"; "b"] 0) current_has_duplicate).1
    = Fulfilled (mkFields ["a"; "a"] 0)
  ∧ list_to_set ["a"; "a"] ≠@{gset string} list_to_set ["a"; "b"].
Proof.
  repeat split; try (vm_compute; reflexivity).
  intros Heq%(f_equal size). vm_compute in Heq. discriminate.
Qed.

Lemma update_fires_iff_sets_differ_witness :
  ∃ this',
    update scope (mkFields ["a"; "b"] 0) A_allowed_elsewhere
    = (Fulfilled this', (get scope A_allowed_elsewhere).2)
    ∧ value this' = ["A"]
    ∧ (fired this' = 1 ↔ list_to_set ["A"] ≠@{gset string} list_to_set ["a"; "b"])
    ∧ (fired this' = 0 ↔ list_to_set ["A"] =@{gset string} list_to_set ["a"; "b"]).
Proof.
  apply (update_fires_iff_sets_differ scope (mkFields ["a"; "b"] 0) A_allowed_elsewhere
           (get scope A_allowed_elsewhere).2 (Some (string_array ["A"])) ["A"]).
  - vm_compute; reflexivity.
  - reflexivity.
  - apply NoDup_singleton.
Defined.

Lemma dual_write_consistency_witness :
  (secrets (store scope ["A"] empty).2 !! _key scope = Some (JSON_stringify ["A"])
   ∧ secrets (store scope ["A"] empty).2 !! _legacyKey scope = Some (JSON_stringify ["A"]))
  ∧ ∃ list,
      secrets (setAllowedAccess scope new A true empty).2 !! _key scope
      = Some (JSON_stringify list)
      ∧ secrets (setAllowedAccess scope new A true empty).2 !! _legacyKey scope
        = Some (JSON_stringify list)
      ∧ secrets (setAllowedAccess scope new A true empty).2 !! _key scope
        = secrets (setAllowedAccess scope new A true empty).2 !! _legacyKey scope.
Proof.
  destruct (dual_write_consistency scope) as [Hstore Hset]. split.
  - apply (Hstore ["A"] empty). vm_compute; reflexivity.
  - apply (Hset new A true empty).
    + vm_compute; reflexivity.
    + exists (_key scope), (JSON_stringify ["A"]). vm_compute. left.
Defined.

Lemma deny_last_deletes_witness :
  setAllowedAccess scope (mkFields ["A"] 0) A false A_allowed_elsewhere
  = delete scope A_allowed_elsewhere
  ∧ calls_since A_allowed_elsewhere
      (setAllowedAccess scope (mkFields ["A"] 0) A false A_allowed_elsewhere).2
    = [SecretDelete (_key scope); SecretDelete (_legacyKey scope)]
  ∧ (∀ st',
       setAllowedAccess scope (mkFields ["A"] 0) A false A_allowed_elsewhere
       = (Fulfilled tt, st') →
       secrets st' !! _key scope = None ∧ secrets st' !! _legacyKey scope = None).
Proof.
  apply (deny_last_deletes scope (mkFields ["A"] 0) A A_allowed_elsewhere).
  - simpl; discriminate.
  - vm_compute; reflexivity.
Defined.

Lemma get_migrates_legacy_forward_witness :
  (∃ st',
     get scope legacy_only = (Fulfilled (Some (string_array ["X"])), st')
     ∧ secrets st' !! _key scope = Some X_text
     ∧ secrets st' !! _legacyKey scope = Some X_text
     ∧ calls_since legacy_only st'
       = [SecretGet (_key scope); SecretGet (_legacyKey scope);
          SecretStore (_key scope) X_text])
  ∧ (∃ st', get scope empty = (Fulfilled None, st') ∧ secrets st' = secrets empty).
Proof.
  split.
  - destruct (@get_migrates_legacy_forward _ scope RefJSONFacts.laws legacy_only)
      as [Hmigrate _].
    destruct (Hmigrate X_text ["X"]) as (st' & Hget & _ & Hcur & Hleg & Hcalls & _).
    + vm_compute; reflexivity.
    + vm_compute; reflexivity.
    + vm_compute; reflexivity.
    + unfold next_calls_resolve. simpl. constructor.
    + by exists st'.
  - destruct (@get_migrates_legacy_forward _ scope RefJSONFacts.laws empty)
      as [_ Habsent].
    destruct Habsent as (st' & Hget & Hsecrets & _).
    + vm_compute; reflexivity.
    + vm_compute; reflexivity.
    + unfold next_calls_resolve. simpl. constructor.
    + by exists st'.
Defined.

(** C6 as stated fails: the current key holds [42], a JSON text that is not
    an array of strings; [get()] returns the number and signals nothing. *)
Lemma get_returns_number_unchecked :
  truthy (secrets current_is_number !! _key scope) = Some "42"
  ∧ JSON_parse "42" ≫= as_string_array = None
  ∧ (get scope current_is_number).1 = Fulfilled (Some (JNumber "42")).
Proof. repeat split; vm_compute; reflexivity. Qed.

Lemma get_rejects_unparsable_witness :
  (∃ st',
     get scope current_unparsable = (Rejected SyntaxError, st')
     ∧ secrets st' = secrets current_unparsable)
  ∧ (∃ st',
       get scope current_is_number = (Fulfilled (Some (JNumber "42")), st')
       ∧ secrets st' = secrets current_is_number).
Proof.
  split.
  - destruct (get_rejects_unparsable scope current_unparsable "{") as [Hcur _].
    apply Hcur.
    + vm_compute; reflexivity.
    + vm_compute; reflexivity.
    + unfold next_calls_resolve. simpl. constructor.
  - destruct (get_rejects_unparsable scope current_is_number "42") as (_ & _ & Hok).
    apply Hok.
    + vm_compute; reflexivity.
    + vm_compute; reflexivity.
    + unfold next_calls_resolve. simpl. constructor.
Defined.

Lemma allow_twice_as_once_witness :
  (∀ st2,
     setAllowedAccess scope new A true (setAllowedAccess scope new A true empty).2
     = (Fulfilled tt, st2) →
     secrets st2 = secrets (setAllowedAccess scope new A true empty).2)
  ∧ (∀ this' st2,
       update scope new (setAllowedAccess scope new A true empty).2 = (Fulfilled this', st2) →
       value this' = ["A"]
       ∧ setAllowedAccess scope this' A true st2 = (Fulfilled tt, st2))
  ∧ secrets (setAllowedAccess scope new A true empty).2 !! _key scope
    = Some (JSON_stringify ["A"]).
Proof.
  destruct (allow_twice_as_once scope new A empty (setAllowedAccess scope new A true empty).2)
    as (Hsame & Hrefreshed & _ & Hstored).
  - vm_compute; reflexivity.
  - split; [exact Hsame|]. split.
    + apply Hrefreshed; [exact RefJSONFacts.laws | apply not_elem_of_nil].
    + apply Hstored, not_elem_of_nil.
Defined.

Lemma deny_absent_is_noop_witness :
  setAllowedAccess scope (mkFields ["B"] 0) A false A_allowed_elsewhere
  = (Fulfilled tt, A_allowed_elsewhere)
  ∧ calls_since A_allowed_elsewhere
      (setAllowedAccess scope (mkFields ["B"] 0) A false A_allowed_elsewhere).2 = [].
Proof.
  apply (deny_absent_is_noop scope (mkFields ["B"] 0) A A_allowed_elsewhere).
  simpl. intros [[=]|[]%elem_of_nil]%elem_of_cons.
Defined.

(** C9 as stated fails: [initialize()] has not been called, another window
    has allowed [A], and the change of the current key has reached the
    registry through the subscription of its constructor: [A] is allowed. *)
Lemma isAllowedAccess_true_before_initialize :
  (on_secret_change scope (_key scope) new A_allowed_elsewhere).1
  = Fulfilled (mkFields ["A"] 1)
  ∧ isAllowedAccess (mkFields ["A"] 1) A = true.
Proof. split; vm_compute; reflexivity. Qed.

Lemma get_empty_string_as_absent_witness :
  ((get scope both_empty_strings).1
   = (get scope (mkSecretStorage (base.delete (_key scope) (secrets both_empty_strings))
                   (calls both_empty_strings) (faults both_empty_strings))).1)
  ∧ (∃ st',
       get scope both_empty_strings = (Fulfilled None, st')
       ∧ secrets st' = secrets both_empty_strings
       ∧ calls_since both_empty_strings st'
         = [SecretGet (_key scope); SecretGet (_legacyKey scope)]).
Proof.
  destruct (get_empty_string_as_absent scope both_empty_strings)
    as (Hcur & _ & Hboth & _).
  split.
  - apply Hcur. vm_compute; reflexivity.
  - apply Hboth.
    + vm_compute; reflexivity.
    + vm_compute; reflexivity.
    + unfold next_calls_resolve. simpl. constructor.
Defined.

End Samples.

(** * Further properties of the ledger and the registry *)

Section LedgerRuns.
Context `{J : JSON} (sc : Scope).

Import AccountAccessSecretStorage.

(** The three ways in which [get] resolves. *)
Lemma get_fulfilled_inv (st st' : SecretStorage) (v : option JSONValue) :
  get sc st = (Fulfilled v, st') →
  (∃ raw j,
     truthy (secrets st !! _key sc) = Some raw ∧ JSON_parse raw = Some j
     ∧ v = Some j ∧ secrets st' = secrets st
     ∧ calls_since st st' = [SecretGet (_key sc)])
  ∨ (∃ raw j,
       truthy (secrets st !! _key sc) = None
       ∧ truthy (secrets st !! _legacyKey sc) = Some raw ∧ JSON_parse raw = Some j
       ∧ v = Some j ∧ secrets st' = <[_key sc := raw]> (secrets st)
       ∧ calls_since st st'
         = [SecretGet (_key sc); SecretGet (_legacyKey sc); SecretStore (_key sc) raw])
  ∨ (truthy (secrets st !! _key sc) = None
     ∧ truthy (secrets st !! _legacyKey sc) = None
     ∧ v = None ∧ secrets st' = secrets st
     ∧ calls_since st st' = [SecretGet (_key sc); SecretGet (_legacyKey sc)]).
Proof.
  unfold get, mbind, Promise_bind, await, secretStorage_get, secretStorage_store,
    backend_call, parse, resolve, reject.
  destruct (faults st) as [|[] [|[] [|[] rest]]]; cbn [secrets calls faults fst snd];
    first
      [ done
      | destruct (truthy (secrets st !! _key sc)) as [raw|] eqn:Hcur;
        [ destruct (JSON_parse raw) as [j|] eqn:Hparse; [|done];
          intros [= <- <-]; left; exists raw, j; repeat split; try done;
          by apply calls_since_app
        | cbn [secrets calls faults fst snd];
          first
            [ done
            | destruct (truthy (secrets st !! _legacyKey sc)) as [raw|] eqn:Hleg;
              [ destruct (JSON_parse raw) as [j|] eqn:Hparse; [|done];
                cbn [secrets calls faults fst snd];
                first
                  [ done
                  | intros [= <- <-]; right; left; exists raw, j;
                    repeat split; try done;
                    apply calls_since_app; simpl; by rewrite <- !app_assoc ]
              | intros [= <- <-]; right; right; repeat split; try done;
                apply calls_since_app; simpl; by rewrite <- !app_assoc ] ] ] ].
Qed.

End LedgerRuns.

Section LedgerFootprint.
Context `{J : JSON} (sc : Scope).

Import AccountAccessSecretStorage.

Local Ltac since_calls :=
  apply calls_since_app; simpl; rewrite <- ?app_assoc; reflexivity.

(** X1 (lines 97-111): whatever the backend does with its calls, [get()]
    makes one of three call sequences: the read of the current key; the reads
    of both keys; or, the current key holding nothing truthy and the legacy
    key a truthy [raw], both reads and the write of [raw] under the current
    key.  The content is left as it was or has [raw] under the current key.
    So [get()] never deletes and never writes the legacy key. *)
Theorem get_backend_footprint (st : SecretStorage) :
  ((calls_since st (get sc st).2 = [SecretGet (_key sc)]
    ∧ secrets (get sc st).2 = secrets st)
   ∨ (calls_since st (get sc st).2 = [SecretGet (_key sc); SecretGet (_legacyKey sc)]
      ∧ secrets (get sc st).2 = secrets st)
   ∨ (∃ raw,
        truthy (secrets st !! _key sc) = None
        ∧ truthy (secrets st !! _legacyKey sc) = Some raw
        ∧ calls_since st (get sc st).2
          = [SecretGet (_key sc); SecretGet (_legacyKey sc); SecretStore (_key sc) raw]
        ∧ (secrets (get sc st).2 = secrets st
           ∨ secrets (get sc st).2 = <[_key sc := raw]> (secrets st))))
  ∧ Forall (λ op, written_key op ≠ Some (_legacyKey sc) ∧ ∀ key, op ≠ SecretDelete key)
      (calls_since st (get sc st).2).
Proof.
  pose proof (key_ne_legacyKey sc) as Hne.
  assert (Hshape :
    (calls_since st (get sc st).2 = [SecretGet (_key sc)]
     ∧ secrets (get sc st).2 = secrets st)
    ∨ (calls_since st (get sc st).2 = [SecretGet (_key sc); SecretGet (_legacyKey sc)]
       ∧ secrets (get sc st).2 = secrets st)
    ∨ (∃ raw,
         truthy (secrets st !! _key sc) = None
         ∧ truthy (secrets st !! _legacyKey sc) = Some raw
         ∧ calls_since st (get sc st).2
           = [SecretGet (_key sc); SecretGet (_legacyKey sc); SecretStore (_key sc) raw]
         ∧ (secrets (get sc st).2 = secrets st
            ∨ secrets (get sc st).2 = <[_key sc := raw]> (secrets st)))).
  { unfold get, mbind, Promise_bind, await, secretStorage_get, secretStorage_store,
      backend_call, parse, resolve, reject.
    destruct (faults st) as [|[] [|[] [|[] rest]]]; cbn [secrets calls faults fst snd];
      try (left; (split; [since_calls | done]));
      (destruct (truthy (secrets st !! _key sc)) as [raw|] eqn:Hcur;
       [ destruct (JSON_parse raw); left; (split; [since_calls | done]) |]);
      cbn [secrets calls faults fst snd];
      try (right; left; (split; [since_calls | done]));
      (destruct (truthy (secrets st !! _legacyKey sc)) as [raw|] eqn:Hleg;
       [| right; left; (split; [since_calls | done]) ]);
      (destruct (JSON_parse raw);
       [| right; left; (split; [since_calls | done]) ]);
      cbn [secrets calls faults fst snd];
      right; right; exists raw; (split; [done|]); (split; [done|]);
      (split; [since_calls|]); first [by left | by right]. }
  split; [exact Hshape|].
  destruct Hshape as [[-> _] | [[-> _] | (raw & _ & _ & -> & _)]];
    repeat constructor; simpl; congruence.
Qed.

End LedgerFootprint.

Section LedgerComposition.
Context `{J : JSON} (sc : Scope).

Import AccountAccessSecretStorage.

(** X2 (lines 97-111): once [get()] has resolved with a value, the next
    [get()], its read resolving, returns the same value from the current key
    alone: one read, no write, whether the first one migrated or not. *)
Theorem get_again_reads_current_only (st st1 : SecretStorage) (j : JSONValue) :
  get sc st = (Fulfilled (Some j), st1) →
  next_calls_resolve 1 st1 →
  ∃ st2,
    get sc st1 = (Fulfilled (Some j), st2)
    ∧ secrets st2 = secrets st1
    ∧ calls_since st1 st2 = [SecretGet (_key sc)].
Proof.
  intros Hget Hok.
  assert (Hcur : ∃ raw, truthy (secrets st1 !! _key sc) = Some raw
                        ∧ JSON_parse raw = Some j).
  { apply get_fulfilled_inv in Hget
      as [(raw & j' & Hcur & Hparse & [= <-] & -> & _)
         | [(raw & j' & _ & Hleg & Hparse & [= <-] & -> & _) | (_ & _ & [=] & _)]].
    - by exists raw.
    - exists raw. split; [|done]. apply truthy_Some in Hleg as [_ Hraw].
      rewrite lookup_insert_eq. by apply truthy_Some. }
  destruct Hcur as (raw & Hcur & Hparse).
  rewrite (get_current sc st1 raw Hcur Hok), Hparse.
  eexists. split; [done|]. split; [done|]. by apply calls_since_app.
Qed.

(** X3 (lines 79, 97-101 and 113-120): the current key depends on the cloud
    name alone, so a list stored through one scope is what [get()] returns
    through any scope of the same cloud, whatever its client and authority:
    one read of the current key, no write. *)
Theorem store_then_get_roundtrip `{!JSONLaws J} (sc' : Scope) (l : list string)
    (st st1 : SecretStorage) :
  _cloudName sc' = _cloudName sc →
  store sc l st = (Fulfilled tt, st1) →
  next_calls_resolve 1 st1 →
  ∃ st2,
    get sc' st1 = (Fulfilled (Some (string_array l)), st2)
    ∧ secrets st2 = secrets st1
    ∧ calls_since st1 st2 = [SecretGet (_key sc')].
Proof.
  intros Hcloud [Hcur _]%store_same_content Hok.
  assert (Hkey : _key sc' = _key sc) by (unfold _key; by rewrite Hcloud).
  assert (Htruthy : truthy (secrets st1 !! _key sc') = Some (JSON_stringify l)).
  { rewrite Hkey. apply truthy_Some. split; [done|]. intros Hempty.
    pose proof (JSON_parse_stringify l) as Hparse.
    rewrite Hempty, JSON_parse_empty in Hparse. done. }
  rewrite (get_current sc' st1 _ Htruthy Hok), JSON_parse_stringify.
  eexists. split; [done|]. split; [done|]. by apply calls_since_app.
Qed.

(** X4 (lines 97-111 and 122-128): after a [delete()] that resolves, a
    [get()] whose two reads resolve returns absent and writes nothing. *)
Theorem delete_then_get_absent (st st1 : SecretStorage) :
  delete sc st = (Fulfilled tt, st1) →
  next_calls_resolve 2 st1 →
  ∃ st2,
    get sc st1 = (Fulfilled None, st2)
    ∧ secrets st2 = secrets st1
    ∧ calls_since st1 st2 = [SecretGet (_key sc); SecretGet (_legacyKey sc)].
Proof.
  intros Hdel%delete_fulfilled Hok.
  assert (Hcur : secrets st1 !! _key sc = None).
  { rewrite Hdel, lookup_delete_ne by (apply not_eq_sym, key_ne_legacyKey).
    by rewrite lookup_delete_eq. }
  assert (Hleg : secrets st1 !! _legacyKey sc = None).
  { by rewrite Hdel, lookup_delete_eq. }
  rewrite get_fallback; [| by rewrite Hcur | done].
  cbv zeta. rewrite Hleg. cbn [truthy].
  eexists. split; [done|]. split; [done|]. by apply calls_since_app.
Qed.

(** X5 (lines 113-120): [store] issues both writes before it awaits either
    and undoes nothing.  When the backend rejects the write of the current
    key only, [store] rejects with that failure, yet the legacy key holds the
    new text and the current key what it held; and the other way round when
    only the write of the legacy key is rejected. *)
Theorem store_partial_failure (l : list string) (st : SecretStorage) :
  (faults st !! 0 = Some true →
   faults st !! 1 ≠ Some true →
   (store sc l st).1
   = Rejected (BackendRejected (SecretStore (_key sc) (JSON_stringify l)))
   ∧ secrets (store sc l st).2 !! _legacyKey sc = Some (JSON_stringify l)
   ∧ secrets (store sc l st).2 !! _key sc = secrets st !! _key sc)
  ∧ (faults st !! 0 ≠ Some true →
     faults st !! 1 = Some true →
     (store sc l st).1
     = Rejected (BackendRejected (SecretStore (_legacyKey sc) (JSON_stringify l)))
     ∧ secrets (store sc l st).2 !! _key sc = Some (JSON_stringify l)
     ∧ secrets (store sc l st).2 !! _legacyKey sc = secrets st !! _legacyKey sc).
Proof.
  pose proof (key_ne_legacyKey sc) as Hne.
  unfold store, mbind, Promise_bind, await, Promise_all2, secretStorage_store, backend_call.
  split; intros H0 H1;
    destruct (faults st) as [|[] [|[] rest]]; simpl in *; try done;
    repeat split; try done;
    by rewrite ?lookup_insert_eq, ?lookup_insert_ne by done.
Qed.

(** X6 (lines 98-101): while the current key holds a truthy value, [get()]
    does not look at the legacy key: on two backends that agree on the
    current key, the log and the faults it settles the same way and makes the
    same calls, whatever the rest of their content. *)
Theorem get_ignores_legacy_when_current_present (st st2 : SecretStorage) (raw : string) :
  truthy (secrets st !! _key sc) = Some raw →
  secrets st2 !! _key sc = secrets st !! _key sc →
  calls st2 = calls st →
  faults st2 = faults st →
  (get sc st2).1 = (get sc st).1
  ∧ calls (get sc st2).2 = calls (get sc st).2
  ∧ calls_since st (get sc st).2 = [SecretGet (_key sc)].
Proof.
  intros Hcur Hsame Hcalls Hfaults.
  unfold get, mbind, Promise_bind, await, secretStorage_get, secretStorage_store,
    backend_call, parse, resolve, reject.
  rewrite Hfaults, Hcalls.
  destruct (faults st) as [|[] rest]; cbn [secrets calls faults fst snd];
    rewrite ?Hsame, ?Hcur; try destruct (JSON_parse raw);
    (split; [done|]); (split; [done|]); by apply calls_since_app.
Qed.

End LedgerComposition.

Section RegistryComposition.
Context `{J : JSON} (sc : Scope).

Import ScopedAccountAccess.


Lemma update_fulfilled_inv (this this' : Fields) (st st' : SecretStorage) :
  update sc this st = (Fulfilled this', st') →
  ∃ fetched fresh,
    AccountAccessSecretStorage.get sc st = (Fulfilled fetched, st')
    ∧ nullish_or fetched = Some fresh
    ∧ value this' = fresh
    ∧ fired this'
      = if differs (list_to_set (value this)) fresh then S (fired this) else fired this.
Proof.
  unfold update, mbind, Promise_bind, await. cbv zeta.
  destruct (AccountAccessSecretStorage.get sc st) as [[fetched|e] st1]; [|done].
  destruct (nullish_or fetched) as [fresh|] eqn:Hfresh; [|done].
  destruct (differs _ fresh) eqn:Hdiffers; unfold resolve, fire; intros [= <- <-];
    exists fetched, fresh; simpl; by rewrite ?Hdiffers.
Qed.


Lemma get_after_store `{!JSONLaws J} (l : list string) (st st1 st2 : SecretStorage)
    (v : option JSONValue) :
  AccountAccessSecretStorage.store sc l st = (Fulfilled tt, st1) →
  AccountAccessSecretStorage.get sc st1 = (Fulfilled v, st2) →
  v = Some (string_array l).
Proof.
  intros [Hcur _]%store_same_content Hget.
  assert (Htruthy : truthy (secrets st1 !! _key sc) = Some (JSON_stringify l)).
  { apply truthy_Some. split; [done|]. intros Hempty.
    pose proof (JSON_parse_stringify l) as Hparse.
    rewrite Hempty, JSON_parse_empty in Hparse. done. }
  apply get_fulfilled_inv in Hget
    as [(raw & j & Hcur' & Hparse & -> & _)
       | [(raw & j & Hcur' & _) | (Hcur' & _)]]; [|congruence..].
  rewrite Htruthy in Hcur'. injection Hcur' as <-.
  rewrite JSON_parse_stringify in Hparse. congruence.
Qed.

Lemma get_after_delete (st st1 st2 : SecretStorage) (v : option JSONValue) :
  AccountAccessSecretStorage.delete sc st = (Fulfilled tt, st1) →
  AccountAccessSecretStorage.get sc st1 = (Fulfilled v, st2) →
  v = None.
Proof.
  intros Hdel%delete_fulfilled Hget.
  assert (Hcur : secrets st1 !! _key sc = None).
  { rewrite Hdel, lookup_delete_ne by (apply not_eq_sym, key_ne_legacyKey).
    by rewrite lookup_delete_eq. }
  assert (Hleg : secrets st1 !! _legacyKey sc = None).
  { by rewrite Hdel, lookup_delete_eq. }
  apply get_fulfilled_inv in Hget
    as [(raw & j & Hcur' & _) | [(raw & j & _ & Hleg' & _) | (_ & _ & -> & _)]];
    [| |done].
  - by rewrite Hcur in Hcur'.
  - by rewrite Hleg in Hleg'.
Qed.

Lemma update_after_store `{!JSONLaws J} (this this' : Fields) (l : list string)
    (st st1 st2 : SecretStorage) :
  AccountAccessSecretStorage.store sc l st = (Fulfilled tt, st1) →
  update sc this st1 = (Fulfilled this', st2) →
  value this' = l.
Proof.
  intros Hstore (fetched & fresh & Hget & Hfresh & <- & _)%update_fulfilled_inv.
  rewrite (get_after_store l st st1 st2 fetched Hstore Hget) in Hfresh.
  cbn [nullish_or string_array] in Hfresh.
  change (JArray (JString <$> l)) with (string_array l) in Hfresh.
  rewrite as_string_array_string_array in Hfresh. congruence.
Qed.

(** X7 (lines 21, 33-35 and 60-68): on a registry just constructed,
    [initialize()] takes the list read as the cache and fires the change
    event exactly when that list is not empty. *)
Theorem initialize_fires_iff_nonempty (st st' : SecretStorage)
    (fetched : option JSONValue) (fresh : list string) :
  AccountAccessSecretStorage.get sc st = (Fulfilled fetched, st') →
  nullish_or fetched = Some fresh →
  initialize sc new st
  = (Fulfilled (mkFields fresh (if decide (fresh = []) then 0 else 1)), st').
Proof.
  intros Hget Hfresh.
  unfold initialize, update, mbind, Promise_bind, await. cbv zeta.
  rewrite Hget, Hfresh. unfold differs, new. cbn [value fired].
  rewrite list_to_set_nil, size_empty.
  destruct fresh as [|x fresh]; [done|].
  rewrite decide_False by done. done.
Qed.


(** X9 (lines 37-39, 49-57 and 60-68): after a deny of a cached account [A]
    that resolves and the [update()] that follows it, the cache is the old
    one without [A]: [A] is not allowed any more and every other account is
    allowed exactly as before. *)
Theorem deny_then_update `{!JSONLaws J} (this this' : Fields) (account : AccountInfo)
    (st st1 st2 : SecretStorage) :
  homeAccountId account ∈ value this →
  setAllowedAccess sc this account false st = (Fulfilled tt, st1) →
  update sc this st1 = (Fulfilled this', st2) →
  value this' = filter (λ id, id ≠ homeAccountId account) (value this)
  ∧ isAllowedAccess this' account = false
  ∧ ∀ other, homeAccountId other ≠ homeAccountId account →
      isAllowedAccess this' other = isAllowedAccess this other.
Proof.
  intros Hin Hdeny Hupdate.
  assert (Hvalue : value this' = filter (λ id, id ≠ homeAccountId account) (value this)).
  { rewrite deny_present in Hdeny by done.
    destruct (filter _ (value this)) as [|x newValue] eqn:Hfilter.
    - apply update_fulfilled_inv in Hupdate as (fetched & fresh & Hget & Hfresh & <- & _).
      rewrite (get_after_delete st st1 st2 fetched Hdeny Hget) in Hfresh.
      simpl in Hfresh. congruence.
    - by apply (update_after_store this this' (x :: newValue) st st1 st2). }
  split; [done|]. unfold isAllowedAccess. rewrite Hvalue. split.
  - apply bool_decide_eq_false_2. intros [Hne _]%list_elem_of_filter. done.
  - intros other Hother. apply bool_decide_ext.
    rewrite list_elem_of_filter. split; [by intros [_ ?] | by intros ?].
Qed.

(** X10 (lines 41-58): whatever the cache, the account and the flag,
    [setAllowedAccess] makes no call at all, or the two deletes, or the two
    stores of one serialized list; that list is never empty and has no
    duplicate when the cache has none.  It never reads the backend. *)
Theorem setAllowedAccess_footprint (this : Fields) (account : AccountInfo)
    (allowed : bool) (st : SecretStorage) :
  calls_since st (setAllowedAccess sc this account allowed st).2 = []
  ∨ calls_since st (setAllowedAccess sc this account allowed st).2
    = [SecretDelete (_key sc); SecretDelete (_legacyKey sc)]
  ∨ ∃ l,
      l ≠ []
      ∧ (NoDup (value this) → NoDup l)
      ∧ calls_since st (setAllowedAccess sc this account allowed st).2
        = [SecretStore (_key sc) (JSON_stringify l);
           SecretStore (_legacyKey sc) (JSON_stringify l)].
Proof.
  destruct (decide (homeAccountId account ∈ value this)) as [Hin|Hin];
    destruct allowed.
  - left. rewrite allow_present by done. apply calls_since_refl.
  - rewrite deny_present by done.
    destruct (filter _ (value this)) as [|x newValue] eqn:Hfilter.
    + right. left. apply calls_since_app, delete_calls.
    + right. right. exists (x :: newValue). split; [done|]. split.
      * intros Hnodup. rewrite <- Hfilter. by apply NoDup_filter.
      * apply calls_since_app, store_calls.
  - right. right. exists (value this ++ [homeAccountId account]).
    split; [by destruct (value this)|]. split.
    + intros Hnodup. apply NoDup_app. split; [done|]. split.
      * intros x Hx [->|[]%elem_of_nil]%elem_of_cons. done.
      * apply NoDup_singleton.
    + rewrite allow_absent by done. apply calls_since_app, store_calls.
  - left. rewrite deny_absent by done. apply calls_since_refl.
Qed.

(** X11 (lines 41-47): [setAllowedAccess] builds the list it stores from the
    cache, not from the backend.  Two allows in a row on one cache, of [A]
    and then of [B], both new, leave the backend with the cache followed by
    [B] alone: after the [update()] that follows, [B] is allowed and [A] is
    not. *)
Theorem allow_on_stale_cache_overwrites `{!JSONLaws J} (this this' : Fields)
    (a b : AccountInfo) (st st1 st2 st3 : SecretStorage) :
  homeAccountId a ∉ value this →
  homeAccountId b ∉ value this →
  homeAccountId a ≠ homeAccountId b →
  setAllowedAccess sc this a true st = (Fulfilled tt, st1) →
  setAllowedAccess sc this b true st1 = (Fulfilled tt, st2) →
  update sc this st2 = (Fulfilled this', st3) →
  secrets st2 !! _key sc = Some (JSON_stringify (value this ++ [homeAccountId b]))
  ∧ secrets st2 !! _legacyKey sc = Some (JSON_stringify (value this ++ [homeAccountId b]))
  ∧ value this' = value this ++ [homeAccountId b]
  ∧ isAllowedAccess this' b = true
  ∧ isAllowedAccess this' a = false.
Proof.
  intros Ha Hb Hab _ Hsecond Hupdate.
  rewrite allow_absent in Hsecond by done.
  destruct (store_same_content sc _ _ _ Hsecond) as [Hcur Hleg].
  pose proof (update_after_store this this' _ st1 st2 st3 Hsecond Hupdate) as Hvalue.
  split; [done|]. split; [done|]. split; [done|].
  unfold isAllowedAccess. rewrite Hvalue. split.
  - apply bool_decide_eq_true_2, elem_of_app. right. by left.
  - apply bool_decide_eq_false_2. intros [?|[?|[]%elem_of_nil]%elem_of_cons]%elem_of_app;
      done.
Qed.

End RegistryComposition.

Section AcrossScopes.
Context `{J : JSON} `{!JSONLaws J} (sc : Scope).

Import ScopedAccountAccess.

Lemma stringified_truthy (l : list string) :
  truthy (Some (JSON_stringify l)) = Some (JSON_stringify l).
Proof.
  apply truthy_Some. split; [done|]. intros Hempty.
  pose proof (JSON_parse_stringify l) as Hparse.
  rewrite Hempty, JSON_parse_empty in Hparse. done.
Qed.

(** X12 (lines 30, 60-68, 79 and 89-93): the listener of the ledger passes on
    a change of the current key, which all scopes of one cloud share.  After
    a store through one scope, the change event of the current key brings
    the stored list into the cache of the registry of any scope of that
    cloud. *)
Theorem stored_list_reaches_registries_of_cloud (sc' : Scope) (this this' : Fields)
    (l : list string) (st st1 st2 : SecretStorage) :
  _cloudName sc' = _cloudName sc →
  AccountAccessSecretStorage.store sc l st = (Fulfilled tt, st1) →
  on_secret_change sc' (_key sc) this st1 = (Fulfilled this', st2) →
  value this' = l.
Proof.
  intros Hcloud [Hcur _]%store_same_content Hevent.
  assert (Hkey : _key sc' = _key sc) by (unfold _key; by rewrite Hcloud).
  unfold on_secret_change, AccountAccessSecretStorage.onDidChange_fires in Hevent.
  rewrite <- Hkey, bool_decide_eq_true_2 in Hevent by done. cbn [orb] in Hevent.
  apply update_fulfilled_inv in Hevent as (fetched & fresh & Hget & Hfresh & <- & _).
  apply get_fulfilled_inv in Hget
    as [(raw & j & Hcur' & Hparse & -> & _)
       | [(raw & j & Hcur' & _) | (Hcur' & _)]];
    rewrite Hkey, Hcur, stringified_truthy in Hcur'; [|done..].
  injection Hcur' as <-. rewrite JSON_parse_stringify in Hparse.
  injection Hparse as <-.
  cbn [nullish_or string_array] in Hfresh.
  change (JArray (JString <$> l)) with (string_array l) in Hfresh.
  rewrite as_string_array_string_array in Hfresh. congruence.
Qed.

(** X13 (lines 97-111 and 113-120): a [store] whose write of the current key
    alone was rejected, on a backend without current key, is repaired by the
    next [get()] whose calls resolve: it finds the new text under the legacy
    key, returns the list and writes the text under the current key, and the
    two keys are equal again. *)
Theorem rejected_store_healed_by_get (l : list string) (st : SecretStorage)
    (rest : list bool) :
  secrets st !! _key sc = None →
  faults st = true :: rest →
  Forall (λ b, b = false) (take 4 rest) →
  ∃ st2,
    AccountAccessSecretStorage.get sc (AccountAccessSecretStorage.store sc l st).2
    = (Fulfilled (Some (string_array l)), st2)
    ∧ secrets st2 !! _key sc = Some (JSON_stringify l)
    ∧ secrets st2 !! _legacyKey sc = Some (JSON_stringify l).
Proof.
  intros Hcur Hfaults Hrest.
  pose proof (key_ne_legacyKey sc) as Hne.
  assert (Hstore : AccountAccessSecretStorage.store sc l st
    = (Rejected (BackendRejected (SecretStore (_key sc) (JSON_stringify l))),
       mkSecretStorage (<[_legacyKey sc := JSON_stringify l]> (secrets st))
         (calls st ++ [SecretStore (_key sc) (JSON_stringify l);
                       SecretStore (_legacyKey sc) (JSON_stringify l)])
         (drop 1 rest))).
  { unfold AccountAccessSecretStorage.store, mbind, Promise_bind, await, Promise_all2,
      secretStorage_store, backend_call.
    rewrite Hfaults. cbn [secrets calls faults].
    destruct rest as [|b rest'].
    - simpl. by rewrite <- ?app_assoc.
    - apply Forall_cons in Hrest as [-> _]. simpl. by rewrite <- ?app_assoc. }
  rewrite Hstore. cbn [snd].
  assert (Hok : next_calls_resolve 3
    (mkSecretStorage (<[_legacyKey sc := JSON_stringify l]> (secrets st))
       (calls st ++ [SecretStore (_key sc) (JSON_stringify l);
                     SecretStore (_legacyKey sc) (JSON_stringify l)])
       (drop 1 rest))).
  { unfold next_calls_resolve. cbn [faults].
    rewrite take_drop_commute. by apply Forall_drop. }
  rewrite get_fallback; cbn [secrets];
    [| by rewrite lookup_insert_ne, Hcur
     | apply (next_calls_resolve_le 2 3); [lia | done]].
  cbv zeta. rewrite lookup_insert_eq, stringified_truthy, JSON_parse_stringify.
  edestruct (secretStorage_store_resolves (_key sc) (JSON_stringify l) 0) as [-> _];
    [by apply (next_calls_resolve_drop 2 1 _ _ _ Hok)|].
  eexists. split; [done|]. cbn [secrets]. split.
  - by rewrite lookup_insert_eq.
  - rewrite lookup_insert_ne by done. by rewrite lookup_insert_eq.
Qed.

End AcrossScopes.

Section CorruptCurrentKey.
Context `{J : JSON} (sc : Scope).

Import ScopedAccountAccess.

(** X14 (lines 33-35, 60-68 and 98-101): when the current key holds a
    non-empty text that [JSON.parse] refuses, [initialize()] and every
    [update()] reject with the [SyntaxError] after the one read of the
    current key: there is no fall-back to the legacy key, whatever it holds,
    and nothing is written. *)
Theorem update_rejects_on_corrupt_current (this : Fields) (st : SecretStorage)
    (raw : string) :
  truthy (secrets st !! _key sc) = Some raw →
  JSON_parse raw = None →
  next_calls_resolve 1 st →
  (update sc this st).1 = Rejected SyntaxError
  ∧ initialize sc this st = update sc this st
  ∧ secrets (update sc this st).2 = secrets st
  ∧ calls_since st (update sc this st).2 = [SecretGet (_key sc)].
Proof.
  intros Hcur Hparse Hok.
  unfold initialize, update, mbind, Promise_bind, await. cbv zeta.
  rewrite (get_current sc st raw Hcur Hok), Hparse. cbn [fst snd secrets].
  repeat split. by apply calls_since_app.
Qed.

End CorruptCurrentKey.

(** ** The further properties at sample inputs *)

Section MoreSamples.
Import Sample AccountAccessSecretStorage ScopedAccountAccess.

#[local] Existing Instance RefJSON.json.

Local Ltac all_resolve := unfold next_calls_resolve; simpl; constructor.

Lemma get_again_reads_current_only_witness :
  ∃ st2,
    get scope (get scope legacy_only).2 = (Fulfilled (Some (string_array ["X"])), st2)
    ∧ secrets st2 = secrets (get scope legacy_only).2
    ∧ calls_since (get scope legacy_only).2 st2 = [SecretGet (_key scope)].
Proof.
  apply (get_again_reads_current_only scope legacy_only).
  - vm_compute; reflexivity.
  - all_resolve.
Defined.

Lemma store_then_get_roundtrip_witness :
  ∃ st2,
    get (mkScope "azure" "other-client" "common") (store scope ["A"] empty).2
    = (Fulfilled (Some (string_array ["A"])), st2)
    ∧ secrets st2 = secrets (store scope ["A"] empty).2
    ∧ calls_since (store scope ["A"] empty).2 st2
      = [SecretGet (_key (mkScope "azure" "other-client" "common"))].
Proof.
  apply (@store_then_get_roundtrip _ scope RefJSONFacts.laws
           (mkScope "azure" "other-client" "common") ["A"] empty).
  - reflexivity.
  - vm_compute; reflexivity.
  - all_resolve.
Defined.

Lemma delete_then_get_absent_witness :
  ∃ st2,
    get scope (delete scope A_allowed_elsewhere).2 = (Fulfilled None, st2)
    ∧ secrets st2 = secrets (delete scope A_allowed_elsewhere).2
    ∧ calls_since (delete scope A_allowed_elsewhere).2 st2
      = [SecretGet (_key scope); SecretGet (_legacyKey scope)].
Proof.
  apply (delete_then_get_absent scope A_allowed_elsewhere).
  - vm_compute; reflexivity.
  - all_resolve.
Defined.

Lemma store_partial_failure_witness :
  ((store scope ["A"] (backend ∅ [true; false])).1
   = Rejected (BackendRejected (SecretStore (_key scope) (JSON_stringify ["A"])))
   ∧ secrets (store scope ["A"] (backend ∅ [true; false])).2 !! _legacyKey scope
     = Some (JSON_stringify ["A"])
   ∧ secrets (store scope ["A"] (backend ∅ [true; false])).2 !! _key scope
     = secrets (backend ∅ [true; false]) !! _key scope)
  ∧ ((store scope ["A"] (backend ∅ [false; true])).1
     = Rejected (BackendRejected (SecretStore (_legacyKey scope) (JSON_stringify ["A"])))
     ∧ secrets (store scope ["A"] (backend ∅ [false; true])).2 !! _key scope
       = Some (JSON_stringify ["A"])
     ∧ secrets (store scope ["A"] (backend ∅ [false; true])).2 !! _legacyKey scope
       = secrets (backend ∅ [false; true]) !! _legacyKey scope).
Proof.
  split.
  - destruct (store_partial_failure scope ["A"] (backend ∅ [true; false])) as [Hfirst _].
    apply Hfirst; [reflexivity | simpl; discriminate].
  - destruct (store_partial_failure scope ["A"] (backend ∅ [false; true])) as [_ Hsecond].
    apply Hsecond; [simpl; discriminate | reflexivity].
Defined.

Lemma get_ignores_legacy_when_current_present_witness :
  (get scope (backend {[ _key scope := JSON_stringify ["A"];
                         _legacyKey scope := "{" ]} [])).1
  = (get scope A_allowed_elsewhere).1
  ∧ calls (get scope (backend {[ _key scope := JSON_stringify ["A"];
                                 _legacyKey scope := "{" ]} [])).2
    = calls (get scope A_allowed_elsewhere).2
  ∧ calls_since A_allowed_elsewhere (get scope A_allowed_elsewhere).2
    = [SecretGet (_key scope)].
Proof.
  apply (get_ignores_legacy_when_current_present scope A_allowed_elsewhere _
           (JSON_stringify ["A"])).
  - vm_compute; reflexivity.
  - vm_compute; reflexivity.
  - reflexivity.
  - reflexivity.
Defined.

Lemma initialize_fires_iff_nonempty_witness :
  initialize scope new A_allowed_elsewhere
  = (Fulfilled (mkFields ["A"] (if decide (["A"] = []) then 0 else 1)),
     (get scope A_allowed_elsewhere).2).
Proof.
  apply (initialize_fires_iff_nonempty scope A_allowed_elsewhere _
           (Some (string_array ["A"])) ["A"]).
  - vm_compute; reflexivity.
  - reflexivity.
Defined.


Lemma deny_then_update_witness :
  update scope (mkFields ["A"; "B"] 0)
    (setAllowedAccess scope (mkFields ["A"; "B"] 0) A false empty).2
  = (Fulfilled (mkFields ["B"] 1),
     (update scope (mkFields ["A"; "B"] 0)
        (setAllowedAccess scope (mkFields ["A"; "B"] 0) A false empty).2).2)
  ∧ value (mkFields ["B"] 1) = filter (λ id, id ≠ homeAccountId A) ["A"; "B"]
  ∧ isAllowedAccess (mkFields ["B"] 1) A = false
  ∧ ∀ other, homeAccountId other ≠ homeAccountId A →
      isAllowedAccess (mkFields ["B"] 1) other
      = isAllowedAccess (mkFields ["A"; "B"] 0) other.
Proof.
  assert (Hupdate : update scope (mkFields ["A"; "B"] 0)
      (setAllowedAccess scope (mkFields ["A"; "B"] 0) A false empty).2
    = (Fulfilled (mkFields ["B"] 1),
       (update scope (mkFields ["A"; "B"] 0)
          (setAllowedAccess scope (mkFields ["A"; "B"] 0) A false empty).2).2))
    by (vm_compute; reflexivity).
  split; [exact Hupdate|].
  apply (@deny_then_update _ scope RefJSONFacts.laws (mkFields ["A"; "B"] 0)
           (mkFields ["B"] 1) A empty
           (setAllowedAccess scope (mkFields ["A"; "B"] 0) A false empty).2
           (update scope (mkFields ["A"; "B"] 0)
              (setAllowedAccess scope (mkFields ["A"; "B"] 0) A false empty).2).2).
  - simpl. by left.
  - vm_compute; reflexivity.
  - exact Hupdate.
Defined.

Lemma allow_on_stale_cache_overwrites_witness :
  secrets (setAllowedAccess scope new (mkAccountInfo "B") true
             (setAllowedAccess scope new A true empty).2).2 !! _key scope
  = Some (JSON_stringify ["B"])
  ∧ secrets (setAllowedAccess scope new (mkAccountInfo "B") true
               (setAllowedAccess scope new A true empty).2).2 !! _legacyKey scope
    = Some (JSON_stringify ["B"])
  ∧ value (mkFields ["B"] 1) = ["B"]
  ∧ isAllowedAccess (mkFields ["B"] 1) (mkAccountInfo "B") = true
  ∧ isAllowedAccess (mkFields ["B"] 1) A = false.
Proof.
  apply (@allow_on_stale_cache_overwrites _ scope RefJSONFacts.laws new (mkFields ["B"] 1) A
           (mkAccountInfo "B") empty
           (setAllowedAccess scope new A true empty).2
           (setAllowedAccess scope new (mkAccountInfo "B") true
              (setAllowedAccess scope new A true empty).2).2
           (update scope new
              (setAllowedAccess scope new (mkAccountInfo "B") true
                 (setAllowedAccess scope new A true empty).2).2).2).
  - apply not_elem_of_nil.
  - apply not_elem_of_nil.
  - simpl; discriminate.
  - vm_compute; reflexivity.
  - vm_compute; reflexivity.
  - vm_compute; reflexivity.
Defined.

Lemma stored_list_reaches_registries_of_cloud_witness :
  on_secret_change (mkScope "azure" "other-client" "common") (_key scope) new
    (store scope ["A"] empty).2
  = (Fulfilled (mkFields ["A"] 1),
     (on_secret_change (mkScope "azure" "other-client" "common") (_key scope) new
        (store scope ["A"] empty).2).2)
  ∧ value (mkFields ["A"] 1) = ["A"].
Proof.
  assert (Hevent :
    on_secret_change (mkScope "azure" "other-client" "common") (_key scope) new
      (store scope ["A"] empty).2
    = (Fulfilled (mkFields ["A"] 1),
       (on_secret_change (mkScope "azure" "other-client" "common") (_key scope) new
          (store scope ["A"] empty).2).2))
    by (vm_compute; reflexivity).
  split; [exact Hevent|].
  apply (@stored_list_reaches_registries_of_cloud _ RefJSONFacts.laws scope
           (mkScope "azure" "other-client" "common") new (mkFields ["A"] 1) ["A"] empty
           (store scope ["A"] empty).2
           (on_secret_change (mkScope "azure" "other-client" "common") (_key scope) new
              (store scope ["A"] empty).2).2).
  - reflexivity.
  - vm_compute; reflexivity.
  - exact Hevent.
Defined.

Lemma rejected_store_healed_by_get_witness :
  ∃ st2,
    get scope (store scope ["A"] (backend ∅ [true])).2
    = (Fulfilled (Some (string_array ["A"])), st2)
    ∧ secrets st2 !! _key scope = Some (JSON_stringify ["A"])
    ∧ secrets st2 !! _legacyKey scope = Some (JSON_stringify ["A"]).
Proof.
  apply (@rejected_store_healed_by_get _ RefJSONFacts.laws scope ["A"] (backend ∅ [true]) []).
  - vm_compute; reflexivity.
  - reflexivity.
  - simpl. constructor.
Defined.

Lemma update_rejects_on_corrupt_current_witness :
  (update scope new (backend {[ _key scope := "{";
                                _legacyKey scope := JSON_stringify ["A"] ]} [])).1
  = Rejected SyntaxError
  ∧ calls_since (backend {[ _key scope := "{"; _legacyKey scope := JSON_stringify ["A"] ]} [])
      (update scope new (backend {[ _key scope := "{";
                                    _legacyKey scope := JSON_stringify ["A"] ]} [])).2
    = [SecretGet (_key scope)].
Proof.
  destruct (update_rejects_on_corrupt_current scope new
              (backend {[ _key scope := "{"; _legacyKey scope := JSON_stringify ["A"] ]} [])
              "{") as (Hrejects & _ & _ & Hcalls).
  - vm_compute; reflexivity.
  - vm_compute; reflexivity.
  - all_resolve.
  - by split.
Defined.

End MoreSamples.
